(** * Hybrid recommender: interleaving, normalisation and rule/popularity blending

    A shallow embedding of [recommender.py] (function [interleave_pairs] and
    class [HybridRecommender]) together with the properties stated for it.

    Conventions of the embedding.
    - Item ids and popularity counts are Python ints: [Z].
    - Python floats are idealised as exact rationals [Q]; equality of
      computed scores is [Qeq].  A division is the only arithmetic operation
      that can raise, and it is modelled as such ([py_div]).
    - [top_n] is a requested number of results: [nat].
    - Sets of ids are [gset Z].  Dictionaries that are only looked up are
      [gmap Z _]; dictionaries that the code iterates over are kept in
      insertion order ([odict]).
    - The two SQL queries are the collaborators: they are fields of a
      [database] record and may raise. *)

From Stdlib Require Import ZArith QArith Lia Lqa List Permutation Sorted.
From stdpp Require Import gmap list strings pretty.

(** ** Tags and small helpers *)

Inductive source := Region | Global | Rules | Popularity.

Inductive turn_t := TurnRegion | TurnGlobal.

#[global] Instance source_eq_dec : EqDecision source.
Proof. solve_decision. Defined.

(** Python's [x < y] on the idealised floats. *)
Definition Qlt_bool (x y : Q) : bool := negb (Qle_bool y x).

(** [d.get(k, dflt)] *)
Definition dict_get_or {V} (d : gmap Z V) (k : Z) (dflt : V) : V :=
  default dflt (d !! k).

(** ** [interleave_pairs] *)

Section Interleave.
Context {Score : Type}.
Variables (a b : list (Z * Score)).
Variable region_norm : gmap Z Q.
Variable threshold : Q.
Variable top_n : nat.

(** The local variables of the function. *)
Record loop_state := LoopState {
  out : list (Z * Score * source);
  seen : gset Z;
  ia : nat;
  ib : nat;
  turn : turn_t
}.

(** [len(out) < top_n and (ia < len(a) or ib < len(b))] *)
Definition loop_cond (s : loop_state) : bool :=
  (length (out s) <? top_n) && ((ia s <? length a) || (ib s <? length b)).

(** The region branch, once [iid, score = a[ia]] has been read. *)
Definition take_region (s : loop_state) (iid : Z) (score : Score) : loop_state :=
  if negb (bool_decide (iid ∈ seen s))
     && Qle_bool threshold (dict_get_or region_norm iid 0%Q)
  then {| out := out s ++ [(iid, score, Region)]; seen := {[iid]} ∪ seen s;
          ia := S (ia s); ib := ib s; turn := TurnGlobal |}
  else {| out := out s; seen := seen s;
          ia := S (ia s); ib := ib s; turn := TurnGlobal |}.

(** Reading [b[ib]] and emitting it if unseen; the turn is set by the caller. *)
Definition emit_global (s : loop_state) (iid : Z) (score : Score) (t : turn_t)
  : loop_state :=
  if negb (bool_decide (iid ∈ seen s))
  then {| out := out s ++ [(iid, score, Global)]; seen := {[iid]} ∪ seen s;
          ia := ia s; ib := S (ib s); turn := t |}
  else {| out := out s; seen := seen s;
          ia := ia s; ib := S (ib s); turn := t |}.

Definition set_turn (s : loop_state) (t : turn_t) : loop_state :=
  {| out := out s; seen := seen s; ia := ia s; ib := ib s; turn := t |}.

(** [len(out) < top_n and ib < len(b)] *)
Definition backfill_cond (s : loop_state) : bool :=
  (length (out s) <? top_n) && (ib s <? length b).

(** The inner [while] (backfill with globals).  [None]: the loop did not
    finish within [fuel] iterations. *)
Fixpoint backfill (fuel : nat) (s : loop_state) : option loop_state :=
  if backfill_cond s then
    match fuel, b !! ib s with
    | S fuel', Some (iid, score) => backfill fuel' (emit_global s iid score (turn s))
    | _, _ => None
    end
  else Some s.

(** [all(region_norm.get(x[0], 0.0) < threshold for x in a[ia:])] *)
Definition rest_below (s : loop_state) : bool :=
  forallb (λ x, Qlt_bool (dict_get_or region_norm x.1 0%Q) threshold)
          (drop (ia s) a).

Inductive outcome := Continue (s : loop_state) | Break (s : loop_state).

(** The [else] branch of the outer loop body. *)
Definition exhausted_branch (fuel : nat) (s : loop_state) : option outcome :=
  if (length a <=? ia s) || rest_below s
  then Break <$> backfill fuel s
  else Some (Continue (set_turn s TurnRegion)).

(** One iteration of the outer [while]; [fuel] bounds the inner loop. *)
Definition body (fuel : nat) (s : loop_state) : option outcome :=
  match turn s, a !! ia s with
  | TurnRegion, Some (iid, score) => Some (Continue (take_region s iid score))
  | _, _ =>
    match turn s, b !! ib s with
    | TurnGlobal, Some (iid, score) =>
        Some (Continue (emit_global s iid score TurnRegion))
    | _, _ => exhausted_branch fuel s
    end
  end.

(** The outer [while].  [None]: not finished within [fuel] iterations. *)
Fixpoint loop (fuel : nat) (s : loop_state) : option loop_state :=
  if loop_cond s then
    match fuel with
    | 0 => None
    | S fuel' =>
        match body fuel' s with
        | Some (Continue s') => loop fuel' s'
        | Some (Break s') => Some s'
        | None => None
        end
    end
  else Some s.

Definition init_state : loop_state :=
  {| out := []; seen := ∅; ia := 0; ib := 0; turn := TurnRegion |}.

(** Enough iterations for every input (see [loop_terminates]). *)
Definition fuel_bound : nat := 2 * length a + 3 * length b + 1.

Definition interleave_pairs : list (Z * Score * source) :=
  match loop fuel_bound init_state with
  | Some s => out s
  | None => []
  end.

End Interleave.

Arguments LoopState {Score}.
Arguments interleave_pairs {Score} a b region_norm threshold top_n.


(** ** Exceptions *)

Inductive exn := DataUnavailable | ZeroDivisionError | IndexError.

Inductive result (A : Type) := Ok (x : A) | Raise (e : exn).
Arguments Ok {A} x.
Arguments Raise {A} e.

#[global] Instance result_ret : MRet result := λ A x, Ok x.
#[global] Instance result_bind : MBind result :=
  λ A B f m, match m with Ok x => f x | Raise e => Raise e end.

(** [x / y]: raises [ZeroDivisionError] when the divisor is zero. *)
Definition py_div (x y : Q) : result Q :=
  if Qeq_bool y 0 then Raise ZeroDivisionError else Ok (x / y)%Q.

(** Two-argument [min(x, y)] and [max(x, y)]: the first argument wins ties. *)
Definition py_min2 (x y : Q) : Q := if Qlt_bool y x then y else x.
Definition py_max2 (x y : Q) : Q := if Qlt_bool x y then y else x.

(** [min(vals)] and [max(vals)] of a non-empty sequence [x :: l]. *)
Definition py_min (x : Q) (l : list Q) : Q := foldl py_min2 x l.
Definition py_max (x : Q) (l : list Q) : Q := foldl py_max2 x l.

(** ** Insertion-ordered dictionaries *)

Abbreviation odict V := (list (Z * V)).

Fixpoint od_get {V} (d : odict V) (k : Z) : option V :=
  match d with
  | [] => None
  | (k', v) :: d' => if decide (k = k') then Some v else od_get d' k
  end.

(** [d[k] = v]: an existing key keeps its position, a new key goes last. *)
Fixpoint od_set {V} (d : odict V) (k : Z) (v : V) : odict V :=
  match d with
  | [] => [(k, v)]
  | (k', v') :: d' =>
      if decide (k = k') then (k, v) :: d' else (k', v') :: od_set d' k v
  end.

Definition od_get_or {V} (d : odict V) (k : Z) (dflt : V) : V :=
  default dflt (od_get d k).

(** [{key: value for x in l}] into a lookup-only dictionary, where computing
    an entry may raise; later entries overwrite earlier ones. *)
Fixpoint dict_comprehension {A V} (f : A → result (Z * V)) (l : list A)
    (acc : gmap Z V) : result (gmap Z V) :=
  match l with
  | [] => Ok acc
  | x :: l' => kv ← f x; dict_comprehension f l' (<[kv.1 := kv.2]> acc)
  end.

(** [sorted(l, key=key, reverse=True)]: stable, descending. *)
Fixpoint insert_desc {A} (key : A → Q) (x : A) (l : list A) : list A :=
  match l with
  | [] => [x]
  | y :: l' =>
      if Qle_bool (key y) (key x) then x :: y :: l' else y :: insert_desc key x l'
  end.

Definition sort_desc {A} (key : A → Q) (l : list A) : list A :=
  foldr (insert_desc key) [] l.

(** ** Normalisers *)

(** [minmax_norm], local to the cold-start branch of [recommend]. *)
Definition minmax_norm (vals : list (Z * Z)) : result (gmap Z Q) :=
  match vals.*2 with
  | [] => Ok ∅
  | v0 :: vs =>
      let min_v := foldl Z.min v0 vs in
      let max_v := foldl Z.max v0 vs in
      if (max_v =? min_v)%Z
      then dict_comprehension (λ '(iid, _), Ok (iid, 1%Q)) vals ∅
      else dict_comprehension
             (λ '(iid, v),
                q ← py_div (inject_Z (v - min_v)) (inject_Z (max_v - min_v));
                Ok (iid, q))
             vals ∅
  end.

(** The [1e-9] added to the denominator. *)
Definition epsilon : Q := 1 # 1000000000.

(** [max_v - min_v + 1e-9] for the values [v0 :: vs] of a dictionary. *)
Definition eps_denominator (v0 : Q) (vs : list Q) : Q :=
  (py_max v0 vs - py_min v0 vs + epsilon)%Q.

(** [minmax_dict], local to the warm-start branch of [recommend]. *)
Definition minmax_dict (d : odict Q) : result (odict Q) :=
  match d.*2 with
  | [] => Ok []
  | v0 :: vs =>
      let min_v := py_min v0 vs in
      mapM (λ '(k, v), q ← py_div (v - min_v)%Q (eps_denominator v0 vs); Ok (k, q)) d
  end.

(** [HybridRecommender._adaptive_alpha] *)
Definition _adaptive_alpha (basket_size : Z) (c : Q) : result Q :=
  if (basket_size <=? 0)%Z then Ok 0%Q
  else py_div (inject_Z basket_size) (inject_Z basket_size + c)%Q.

(** The blend weight as [recommend] computes it:
    [c = 3; alpha = min(1.0, max(0.0, len(basket) / (len(basket) + c)))]. *)
Definition blend_alpha (basket_size : nat) : result Q :=
  let n := Z.of_nat basket_size in
  x ← py_div (inject_Z n) (inject_Z (n + 3));
  Ok (py_min2 1%Q (py_max2 0%Q x)).

(** ** The engine *)

(** A row of the rules query; [consequent_key] is the comma-separated text
    column, already split and converted to ints. *)
Record rule_row := RuleRow {
  consequent_key : list Z;
  confidence : Q;
  lift : Q;
  rule_score : Q
}.

(** The storage collaborator: the popularity query (region, excluded ids,
    limit) and the rules query (basket ids, limit). *)
Record database := Database {
  query_popularity : string → list Z → nat → result (list (Z * Z));
  query_rules : list Z → nat → result (list rule_row)
}.

(** The attributes of a [HybridRecommender] that the methods read or write. *)
Record HybridRecommender := Engine {
  region : string;
  basket : gset Z;
  id_to_item : gmap Z string
}.

(** The signal components of a warm-start candidate: the inner dictionary
    with the optional keys ["rule"] and ["pop"]. *)
Record components := Components {
  rule : option Q;
  pop : option Z
}.

Record cold_rec := ColdRecord {
  cold_item_id : Z;
  cold_description : string;
  region_score : option Q;
  global_score : option Q;
  cold_source : source
}.

Record warm_rec := WarmRecord {
  warm_item_id : Z;
  warm_description : string;
  final_score : Q;
  rule_norm : option Q;
  pop_norm : option Q;
  warm_source : source
}.

Inductive recommendation := ColdRec (r : cold_rec) | WarmRec (r : warm_rec).

Definition item_id (r : recommendation) : Z :=
  match r with ColdRec c => cold_item_id c | WarmRec w => warm_item_id w end.

Definition rec_source (r : recommendation) : source :=
  match r with ColdRec c => cold_source c | WarmRec w => warm_source w end.

Section Engine.
Variable db : database.

(** [self.id_to_item.get(iid, f"<unknown:{iid}>")] *)
Definition describe (self : HybridRecommender) (iid : Z) : string :=
  default ("<unknown:" +:+ pretty iid +:+ ">") (id_to_item self !! iid).

Definition _fetch_popularity (self : HybridRecommender)
    (top_n_region top_n_global : nat) (exclude_ids : list Z)
  : result (list (Z * Z * source)) :=
  region_rows ← query_popularity db (region self) exclude_ids (top_n_region * 2);
  global_rows ← query_popularity db "GLOBAL" exclude_ids (top_n_global * 2);
  let region_tagged := (λ '(iid, score), (iid, score, Region)) <$> region_rows in
  let global_tagged := (λ '(iid, score), (iid, score, Global)) <$> global_rows in
  Ok (region_tagged ++ global_tagged).

(** The loop of [_fetch_rules] over the fetched rows.  [list(cons_items)[0]]
    is the first element of [elements]. *)
Fixpoint collect_recs (basket_set : gset Z) (rows : list rule_row)
    (recs : odict Q) : result (odict Q) :=
  match rows with
  | [] => Ok recs
  | row :: rows' =>
      let cons_items : gset Z := list_to_set (consequent_key row) in
      if bool_decide (cons_items ∩ basket_set ≠ ∅)
      then collect_recs basket_set rows' recs
      else match elements cons_items with
           | [] => Raise IndexError
           | c :: _ =>
               collect_recs basket_set rows'
                 (od_set recs c (py_max2 (od_get_or recs c 0%Q) (rule_score row)))
           end
  end.

Definition _fetch_rules (self : HybridRecommender) (basket_ids : list Z)
    (fetch_limit : nat) : result (odict Q) :=
  match basket_ids with
  | [] => Ok []
  | _ =>
      rows ← query_rules db basket_ids fetch_limit;
      collect_recs (list_to_set basket_ids) rows []
  end.

(** Cold start, after the popularity fetch. *)
Definition cold_start (self : HybridRecommender)
    (pop_all : list (Z * Z * source)) (top_n : nat)
  : result (list recommendation) :=
  let pop_region :=
    omap (λ '(iid, score, src),
            if decide (src = Region) then Some (iid, score) else None) pop_all in
  let pop_global :=
    omap (λ '(iid, score, src),
            if decide (src = Global) then Some (iid, score) else None) pop_all in
  region_norm ← minmax_norm pop_region;
  global_norm ← minmax_norm pop_global;
  let pop := interleave_pairs pop_region pop_global region_norm (2 # 10) top_n in
  Ok ((λ '(iid, score, src),
         ColdRec {| cold_item_id := iid;
                    cold_description := describe self iid;
                    region_score :=
                      if decide (src = Region) then region_norm !! iid else None;
                    global_score :=
                      if decide (src = Global) then global_norm !! iid else None;
                    cold_source := src |})
        <$> take top_n pop).

(** "Collect rules scores". *)
Definition collect_rule_candidates (self : HybridRecommender)
    (ranked_rules : list (Z * Q)) : odict components :=
  foldl (λ cs '(iid, score),
           if bool_decide (iid ∈ basket self) then cs
           else od_set cs iid {| rule := Some score; pop := None |})
        [] ranked_rules.

(** "Collect popularity scores for backfill". *)
Definition collect_pop_candidates (self : HybridRecommender)
    (pop_rows : list (Z * Z * source)) (candidate_scores : odict components)
  : odict components :=
  foldl (λ cs '(iid, score, _),
           if bool_decide (iid ∈ basket self) then cs
           else
             let comp := od_get_or cs iid {| rule := None; pop := None |} in
             od_set cs iid {| rule := rule comp; pop := Some score |})
        candidate_scores pop_rows.

Definition rule_scores (candidate_scores : odict components) : odict Q :=
  omap (λ '(iid, s), (λ v, (iid, v)) <$> rule s) candidate_scores.

Definition pop_scores (candidate_scores : odict components) : odict Q :=
  omap (λ '(iid, s), (λ v, (iid, inject_Z v)) <$> pop s) candidate_scores.

(** One output record of the "Final scoring" loop. *)
Definition score_candidate (self : HybridRecommender) (rule_norm pop_norm : odict Q)
    (alpha : Q) (iid : Z) (comp : components) : warm_rec :=
  let rn := od_get_or rule_norm iid 0%Q in
  let pn := od_get_or pop_norm iid 0%Q in
  {| warm_item_id := iid;
     warm_description := describe self iid;
     final_score := (alpha * rn + (1 - alpha) * pn)%Q;
     rule_norm := if rule comp is Some _ then Some rn else None;
     pop_norm := if pop comp is Some _ then Some pn else None;
     warm_source := if rule comp is Some _ then Rules else Popularity |}.

(** Warm start, from the normalisation on. *)
Definition warm_scoring (self : HybridRecommender)
    (candidate_scores : odict components) (top_n : nat)
  : result (list recommendation) :=
  rule_norm ← minmax_dict (rule_scores candidate_scores);
  pop_norm ← minmax_dict (pop_scores candidate_scores);
  alpha ← blend_alpha (size (basket self));
  let results :=
    (λ '(iid, comp), score_candidate self rule_norm pop_norm alpha iid comp)
      <$> candidate_scores in
  Ok (WarmRec <$> take top_n (sort_desc final_score results)).

(** The candidates of a warm start once the rules are fetched. *)
Definition rule_candidates (self : HybridRecommender) (rules_dict : odict Q)
  : odict components :=
  collect_rule_candidates self (sort_desc snd rules_dict).

(** [exclude_more] *)
Definition exclude_more (self : HybridRecommender)
    (candidate_scores : odict components) : list Z :=
  elements (basket self ∪ list_to_set candidate_scores.*1).

Definition recommend (self : HybridRecommender) (top_n : nat)
  : result (list recommendation) :=
  let exclude := elements (basket self) in
  if decide (basket self = ∅) then
    pop_all ← _fetch_popularity self top_n top_n exclude;
    cold_start self pop_all top_n
  else
    rules_dict ← _fetch_rules self (elements (basket self)) (top_n * 8);
    let candidate_scores := rule_candidates self rules_dict in
    pop_rows ← _fetch_popularity self top_n top_n
                 (exclude_more self candidate_scores);
    warm_scoring self (collect_pop_candidates self pop_rows candidate_scores) top_n.

(** [recommend] as a method call: it assigns no attribute of [self] and
    mutates neither the basket nor the catalogue, so the engine after the
    call, whether it returns or raises, is the engine before it. *)
Definition run_recommend (self : HybridRecommender) (top_n : nat)
  : HybridRecommender * result (list recommendation) :=
  (self, recommend self top_n).

Definition set_region (self : HybridRecommender) (r : string) : HybridRecommender :=
  {| region := r; basket := basket self; id_to_item := id_to_item self |}.

Definition reset_basket (self : HybridRecommender) : HybridRecommender :=
  {| region := region self; basket := ∅; id_to_item := id_to_item self |}.

(** [self.basket.add(int(item)); return self.recommend(top_n=top_n)]: the
    basket is updated in place before [recommend] runs. *)
Definition add_item (self : HybridRecommender) (item : Z) (top_n : nat)
  : HybridRecommender * result (list recommendation) :=
  let self' := {| region := region self; basket := {[item]} ∪ basket self;
                  id_to_item := id_to_item self |} in
  (self', recommend self' top_n).

Definition remove_item (self : HybridRecommender) (item : Z) (top_n : nat)
  : HybridRecommender * result (list recommendation) :=
  let self' := {| region := region self; basket := basket self ∖ {[item]};
                  id_to_item := id_to_item self |} in
  (self', recommend self' top_n).

End Engine.

(** ** Specification-level notions *)

Section InterleaveSpec.
Context {Score : Type}.
Variables (a b : list (Z * Score)).
Variable region_norm : gmap Z Q.
Variable threshold : Q.
Variable top_n : nat.

(** What holds of the local variables at every point of the loops. *)
Record loop_inv (s : @loop_state Score) : Prop := LoopInv {
  inv_length : length (out s) ≤ top_n;
  inv_nodup : NoDup (out s).*1.*1;
  inv_seen : ∀ i, i ∈ seen s ↔ i ∈ (out s).*1.*1;
  inv_gate : Forall (λ e, (threshold <= dict_get_or region_norm e.1.1 0)%Q)
                    (filter (λ e, e.2 = Region) (out s))
}.

(** The quantity that every non-final iteration of the outer loop lowers. *)
Definition loop_measure (s : @loop_state Score) : nat :=
  2 * (length a - ia s) + 2 * (length b - ib s)
  + match turn s with
    | TurnGlobal => if ib s <? length b then 0 else 1
    | TurnRegion => 0
    end.

Definition advances_region (s s' : @loop_state Score) : Prop :=
  ia s' = S (ia s) ∧ ib s' = ib s.

Definition advances_global (s s' : @loop_state Score) : Prop :=
  ia s' = ia s ∧ ib s' = S (ib s).

(** The turn is handed back to the region side, nothing else changes, and
    the iteration after this one reads [a[ia]]. *)
Definition hands_back (fuel : nat) (s s' : @loop_state Score) : Prop :=
  turn s' = TurnRegion ∧ ia s' = ia s ∧ ib s' = ib s ∧ out s' = out s
  ∧ loop_cond a b top_n s' = true
  ∧ ∃ s'', body a b region_norm threshold top_n fuel s' = Some (Continue s'')
           ∧ advances_region s' s''.

Definition iteration_progress (fuel : nat) (s : @loop_state Score) : Prop :=
  match body a b region_norm threshold top_n fuel s with
  | Some (Break _) => True
  | Some (Continue s') =>
      advances_region s s' ∨ advances_global s s' ∨ hands_back fuel s s'
  | None => False
  end.
End InterleaveSpec.

(** The entries of [l] whose id is neither in [seen] nor earlier in [l]. *)
Fixpoint first_occurrences {Score} (seen : gset Z) (l : list (Z * Score))
  : list (Z * Score) :=
  match l with
  | [] => []
  | (iid, score) :: l' =>
      if bool_decide (iid ∈ seen) then first_occurrences seen l'
      else (iid, score) :: first_occurrences ({[iid]} ∪ seen) l'
  end.

Definition tag_global {Score} (x : Z * Score) : Z * Score * source :=
  (x.1, x.2, Global).

(** A normalised component of a candidate, with 0.0 standing in for a signal
    that the candidate does not carry. *)
Definition norm_or_zero {A} (norm : odict Q) (iid : Z) (signal : option A) (q : Q)
  : Prop :=
  match signal with
  | Some _ => od_get norm iid = Some q
  | None => q = 0%Q
  end.

(** The record [r] is the blend of the candidate with its id. *)
Definition blended (alpha : Q) (rn pn : odict Q) (cands : odict components)
    (r : warm_rec) : Prop :=
  ∃ comp qr qp,
    od_get cands (warm_item_id r) = Some comp
    ∧ norm_or_zero rn (warm_item_id r) (rule comp) qr
    ∧ norm_or_zero pn (warm_item_id r) (pop comp) qp
    ∧ final_score r = (alpha * qr + (1 - alpha) * qp)%Q
    ∧ warm_source r = (if rule comp is Some _ then Rules else Popularity).

(** A warm-start record with exactly one non-null normalised component, to
    which its final score reduces. *)
Definition single_signal (alpha : Q) (r : recommendation) : Prop :=
  ∃ w q, r = WarmRec w
    ∧ ((rule_norm w = Some q ∧ pop_norm w = None
        ∧ (final_score w == alpha * q)%Q)
       ∨ (rule_norm w = None ∧ pop_norm w = Some q
          ∧ (final_score w == (1 - alpha) * q)%Q)).

Definition with_basket (self : HybridRecommender) (bk : gset Z) : HybridRecommender :=
  {| region := region self; basket := bk; id_to_item := id_to_item self |}.

(** The first collaborator query of [recommend] that fails, fails with [e]. *)
Inductive first_failing_query (db : database) (self : HybridRecommender)
    (top_n : nat) (e : exn) : Prop :=
| cold_region_fails :
    basket self = ∅ →
    query_popularity db (region self) (elements (basket self)) (top_n * 2) = Raise e →
    first_failing_query db self top_n e
| cold_global_fails rows :
    basket self = ∅ →
    query_popularity db (region self) (elements (basket self)) (top_n * 2) = Ok rows →
    query_popularity db "GLOBAL" (elements (basket self)) (top_n * 2) = Raise e →
    first_failing_query db self top_n e
| warm_rules_fail :
    basket self ≠ ∅ →
    query_rules db (elements (basket self)) (top_n * 8) = Raise e →
    first_failing_query db self top_n e
| warm_region_fails rules_dict :
    basket self ≠ ∅ →
    _fetch_rules db self (elements (basket self)) (top_n * 8) = Ok rules_dict →
    query_popularity db (region self)
      (exclude_more self (rule_candidates self rules_dict)) (top_n * 2) = Raise e →
    first_failing_query db self top_n e
| warm_global_fails rules_dict rows :
    basket self ≠ ∅ →
    _fetch_rules db self (elements (basket self)) (top_n * 8) = Ok rules_dict →
    query_popularity db (region self)
      (exclude_more self (rule_candidates self rules_dict)) (top_n * 2) = Ok rows →
    query_popularity db "GLOBAL"
      (exclude_more self (rule_candidates self rules_dict)) (top_n * 2) = Raise e →
    first_failing_query db self top_n e.

(** ** Concrete inputs *)

(** A storage that cannot be reached. *)
Definition unreachable_db : database :=
  {| query_popularity := λ _ _ _, Raise DataUnavailable;
     query_rules := λ _ _, Raise DataUnavailable |}.

Definition fresh_engine : HybridRecommender :=
  {| region := "EU"; basket := ∅; id_to_item := {[ 1%Z := "tea" ]} |}.

(** A small storage: two rules for basket item 10, and popularity rows that
    leave out the excluded ids. *)
Definition sample_db : database :=
  {| query_popularity := λ r exclude _,
       Ok (filter (λ row, row.1 ∉ exclude)
             (if String.eqb r "GLOBAL"
              then [(40, 50); (50, 20); (20, 5)]%Z
              else [(40, 50); (60, 10)]%Z));
     query_rules := λ _ _,
       Ok [ {| consequent_key := [20%Z]; confidence := 1 # 2; lift := 2;
               rule_score := 9 # 10 |};
            {| consequent_key := [30%Z]; confidence := 1 # 4; lift := 1;
               rule_score := 4 # 10 |} ] |}.

Definition sample_engine : HybridRecommender :=
  {| region := "EU"; basket := {[ 10%Z ]}; id_to_item := {[ 20%Z := "milk" ]} |}.

(** The interleaving scenario: region and global lists with their counts,
    and the regional scores after normalisation. *)
Definition sample_region : list (Z * Z) := [(1, 100); (2, 50)]%Z.
Definition sample_global : list (Z * Z) := [(3, 200); (1, 100); (4, 10)]%Z.
Definition sample_norm : gmap Z Q := <[2%Z := 0%Q]> (<[1%Z := 1%Q]> ∅).

(** What [sample_db] answers to the two fetches of a warm start from
    [sample_engine]. *)
Definition sample_rules : odict Q := [(20%Z, 9 # 10); (30%Z, 4 # 10)].
Definition sample_pop_rows : list (Z * Z * source) :=
  [(40, 50, Region); (60, 10, Region); (40, 50, Global); (50, 20, Global)]%Z.

(** ** Further notions for the interleaver *)

#[global] Instance Qle_decision (x y : Q) : Decision (x <= y)%Q :=
  match Qlt_le_dec y x with
  | left H => right (Qlt_not_le y x H)
  | right H => left H
  end.

Definition tag_region {Score} (x : Z * Score) : Z * Score * source :=
  (x.1, x.2, Region).

(** The [(iid, score)] pairs of the entries of [l] tagged [src], in order. *)
Definition entries_of {Score} (src : source) (l : list (Z * Score * source))
  : list (Z * Score) :=
  omap (λ e, if decide (e.2 = src) then Some e.1 else None) l.

(** The entries of [l] that pass the threshold gate and whose id is neither
    in [seen] nor in an earlier kept entry. *)
Fixpoint gated_first_occurrences {Score} (region_norm : gmap Z Q) (threshold : Q)
    (seen : gset Z) (l : list (Z * Score)) : list (Z * Score) :=
  match l with
  | [] => []
  | (iid, score) :: l' =>
      if negb (bool_decide (iid ∈ seen))
         && Qle_bool threshold (dict_get_or region_norm iid 0%Q)
      then (iid, score) :: gated_first_occurrences region_norm threshold
                             ({[iid]} ∪ seen) l'
      else gated_first_occurrences region_norm threshold seen l'
  end.

(** Strict alternation starting with the region side; when one side runs
    out the rest of the other follows. *)
Fixpoint alternate {Score} (a b : list (Z * Score)) : list (Z * Score * source) :=
  match a, b with
  | [], _ => tag_global <$> b
  | _ :: _, [] => tag_region <$> a
  | x :: a', y :: b' => tag_region x :: tag_global y :: alternate a' b'
  end.

(** The same, starting with the global side. *)
Definition alternate_from {Score} (t : turn_t) (a b : list (Z * Score))
  : list (Z * Score * source) :=
  match t, b with
  | TurnRegion, _ => alternate a b
  | TurnGlobal, [] => tag_region <$> a
  | TurnGlobal, y :: b' => tag_global y :: alternate a b'
  end.

Section InterleaveTrace.
Context {Score : Type}.
Variables (a b : list (Z * Score)).
Variable region_norm : gmap Z Q.
Variable threshold : Q.
Variable top_n : nat.

(** Where the emitted entries come from and what the cursors have covered. *)
Record trace_inv (s : @loop_state Score) : Prop := TraceInv {
  trace_tags : Forall (λ e, e.2 = Region ∨ e.2 = Global) (out s);
  trace_region : sublist (entries_of Region (out s)) (take (ia s) a);
  trace_global : sublist (entries_of Global (out s)) (take (ib s) b);
  trace_cover_a : ∀ x, x ∈ take (ia s) a →
                    (threshold <= dict_get_or region_norm x.1 0)%Q → x.1 ∈ seen s;
  trace_cover_b : ∀ x, x ∈ take (ib s) b → x.1 ∈ seen s
}.

(** How the outer loop can be left. *)
Definition exit_state (s : @loop_state Score) : Prop :=
  top_n ≤ length (out s)
  ∨ (length b ≤ ib s
     ∧ (length a ≤ ia s ∨ rest_below a region_norm threshold s = true)).
End InterleaveTrace.

(** ** Further functions of the class *)

(** [HybridRecommender._normalize_rule_scores] *)
Definition _normalize_rule_scores (rules_dict : odict Q) : result (odict Q) :=
  match rules_dict.*2 with
  | [] => Ok []
  | v0 :: vs =>
      let mn := py_min v0 vs in
      let mx := py_max v0 vs in
      if Qeq_bool mx mn
      then Ok ((λ '(iid, v), (iid, if Qlt_bool 0 v then 1%Q else 0%Q)) <$> rules_dict)
      else mapM (λ '(iid, v), q ← py_div (v - mn)%Q (mx - mn)%Q; Ok (iid, q))
                rules_dict
  end.

(** [HybridRecommender._normalize_pop_scores].  [math.log1p] is a parameter:
    the float it returns, or the error it raises outside its domain. *)
Definition _normalize_pop_scores (log1p : Q → result Q) (pop_scores : odict Q)
  : result (odict Q) :=
  match pop_scores.*2 with
  | [] => Ok []
  | v0 :: vs =>
      y0 ← log1p v0;
      ys ← mapM log1p vs;
      let mn := py_min y0 ys in
      let mx := py_max y0 ys in
      if Qeq_bool mx mn
      then Ok ((λ '(iid, v), (iid, if Qlt_bool 0 v then 1%Q else 0%Q)) <$> pop_scores)
      else mapM (λ '(iid, v),
                   y ← log1p v;
                   q ← py_div (y - mn)%Q (mx - mn)%Q;
                   Ok (iid, q))
                pop_scores
  end.

(** [HybridRecommender._load_product_map]: the catalogue query returns the
    [(item_id, description)] rows or raises. *)
Definition _load_product_map (catalog_query : result (list (Z * string)))
    (self : HybridRecommender) : result HybridRecommender :=
  rows ← catalog_query;
  m ← dict_comprehension (λ row : Z * string, Ok (row.1, row.2)) rows ∅;
  Ok {| region := region self; basket := basket self; id_to_item := m |}.

(** [HybridRecommender.__init__], for the attributes that the methods use. *)
Definition __init__ (catalog_query : result (list (Z * string))) (region : string)
  : result HybridRecommender :=
  _load_product_map catalog_query
    {| region := region; basket := ∅; id_to_item := ∅ |}.

(** ** Shapes of the returned records *)

(** A cold-start record: catalogue description or placeholder, and exactly
    the score of its source, within the bounds of that source. *)
Definition cold_shape (self : HybridRecommender) (r : recommendation) : Prop :=
  ∃ c, r = ColdRec c
    ∧ cold_description c = describe self (cold_item_id c)
    ∧ ((cold_source c = Region ∧ global_score c = None
        ∧ ∃ q, region_score c = Some q ∧ (2 # 10 <= q)%Q ∧ (q <= 1)%Q)
       ∨ (cold_source c = Global ∧ region_score c = None
          ∧ ∃ q, global_score c = Some q ∧ (0 <= q)%Q ∧ (q <= 1)%Q)).

(** A warm-start record: catalogue description or placeholder, a final
    score in [0, 1), and a source that is rules or popularity. *)
Definition warm_shape (self : HybridRecommender) (r : recommendation) : Prop :=
  ∃ w, r = WarmRec w
    ∧ warm_description w = describe self (warm_item_id w)
    ∧ (0 <= final_score w)%Q ∧ (final_score w < 1)%Q
    ∧ (warm_source w = Rules ∨ warm_source w = Popularity).

(** ** The presentation layer ([streamlit_app.py]) *)

(** The region list of the selector: the non-null regions of the query, or
    none when the query fails (the [except] branch). *)
Definition load_regions (rows : result (list (option string))) : list string :=
  match rows with
  | Ok rs => omap id rs
  | Raise _ => []
  end.

(** The reordering of the region list before it is offered:
    ["GLOBAL"] first when present, ["GLOBAL"] alone when nothing was loaded. *)
Definition region_choices (regions : list string) : list string :=
  if bool_decide ("GLOBAL" ∈ regions)
  then "GLOBAL" :: filter (λ r, r ≠ "GLOBAL") regions
  else match regions with
       | [] => ["GLOBAL"]
       | _ => regions
       end.

(** [r.get(key)] for the three score keys of a record. *)
Definition get_final_score (r : recommendation) : option Q :=
  match r with WarmRec w => Some (final_score w) | ColdRec _ => None end.
Definition get_region_score (r : recommendation) : option Q :=
  match r with ColdRec c => region_score c | WarmRec _ => None end.
Definition get_global_score (r : recommendation) : option Q :=
  match r with ColdRec c => global_score c | WarmRec _ => None end.

(** Python's [x or y] on an optional float: [None] and [0.0] are falsy. *)
Definition py_or (x y : option Q) : option Q :=
  match x with
  | Some q => if Qeq_bool q 0 then y else x
  | None => y
  end.

(** [r.get("final_score") or r.get("region_score") or r.get("global_score")
    or 0.0] *)
Definition display_score (r : recommendation) : Q :=
  default 0%Q
    (py_or (py_or (py_or (get_final_score r) (get_region_score r))
                  (get_global_score r))
           (Some 0%Q)).

(** The score that a record carries for its source. *)
Definition own_score (r : recommendation) : option Q :=
  match r with
  | WarmRec w => Some (final_score w)
  | ColdRec c =>
      match cold_source c with
      | Region => region_score c
      | _ => global_score c
      end
  end.

(** The values of [math.log1p] at the counts 0, 9 and 99, to sixteen
    digits; used as a concrete [log1p] in examples. *)
Definition log1p_table (v : Q) : result Q :=
  if Qeq_bool v 0 then Ok 0%Q
  else if Qeq_bool v 9 then Ok (2302585092994046 # 1000000000000000)
  else if Qeq_bool v 99 then Ok (4605170185988092 # 1000000000000000)
  else Raise DataUnavailable.

(** ** Further concrete inputs *)

(** Regional scores under which both entries of [sample_region] pass the
    threshold, and a global list that shares no id with it. *)
Definition sample_norm_pass : gmap Z Q := <[2%Z := 1 # 2]> (<[1%Z := 1%Q]> ∅).
Definition sample_global_fresh : list (Z * Z) := [(3, 200); (4, 10)]%Z.

(** Rule strengths that are all equal (as rationals), and popularity counts. *)
Definition sample_equal_strengths : odict Q := [(20%Z, 5 # 10); (30%Z, 1 # 2)].
Definition sample_counts : odict Q := [(1%Z, 0%Q); (2%Z, 9%Q); (3%Z, 99%Q)].

(** The rows that [sample_db] answers to the rules query. *)
Definition sample_rule_rows : list rule_row :=
  [ {| consequent_key := [20%Z]; confidence := 1 # 2; lift := 2;
       rule_score := 9 # 10 |};
    {| consequent_key := [30%Z]; confidence := 1 # 4; lift := 1;
       rule_score := 4 # 10 |} ].

(** A region record as cold start returns it. *)
Definition sample_cold_record : recommendation :=
  ColdRec {| cold_item_id := 40; cold_description := "<unknown:40>";
             region_score := Some 1%Q; global_score := None;
             cold_source := Region |}.

(** * Properties *)

Lemma Qlt_bool_iff x y : Qlt_bool x y = true ↔ (x < y)%Q.
Proof.
  unfold Qlt_bool. rewrite negb_true_iff. split.
  - intros H. apply Qnot_le_lt. intros Hle.
    apply Qle_bool_iff in Hle. congruence.
  - intros H. destruct (Qle_bool y x) eqn:E; [|done].
    apply Qle_bool_iff in E. exfalso. eapply Qlt_not_le; eauto.
Qed.

Lemma Qlt_bool_false_iff x y : Qlt_bool x y = false ↔ (y <= x)%Q.
Proof.
  unfold Qlt_bool. rewrite negb_false_iff. apply Qle_bool_iff.
Qed.

(** ** The interleaver *)

Section InterleaveProofs.
Context {Score : Type}.
Variables (a b : list (Z * Score)).
Variable region_norm : gmap Z Q.
Variable threshold : Q.
Variable top_n : nat.

Local Abbreviation inv := (loop_inv region_norm threshold top_n).
Local Abbreviation state := (@loop_state Score).

Lemma init_inv : inv (@init_state Score).
Proof.
  split; simpl.
  - lia.
  - constructor.
  - intros i. set_solver.
  - constructor.
Qed.

Lemma append_inv (s s' : state) iid score src :
  inv s → length (out s) < top_n → iid ∉ seen s →
  (src = Region → (threshold <= dict_get_or region_norm iid 0)%Q) →
  out s' = out s ++ [(iid, score, src)] → seen s' = {[iid]} ∪ seen s →
  inv s'.
Proof.
  intros [Hlen Hnd Hseen Hgate] Hlt Hfresh Hsrc Hout Hs.
  split; rewrite ?Hout, ?Hs.
  - rewrite length_app. simpl. lia.
  - rewrite !fmap_app. simpl. apply NoDup_app. split; [done|]. split.
    + intros x Hx Hx'. apply list_elem_of_singleton in Hx'. subst x.
      apply Hfresh, Hseen, Hx.
    + apply NoDup_singleton.
  - intros i. rewrite !fmap_app, elem_of_app, elem_of_union, Hseen. simpl.
    rewrite list_elem_of_singleton, elem_of_singleton. tauto.
  - rewrite filter_app. apply Forall_app. split; [done|].
    rewrite filter_cons, filter_nil. simpl. case_decide; [|constructor].
    constructor; [|constructor]. simpl. auto.
Qed.

Lemma same_out_inv (s s' : state) :
  inv s → out s' = out s → seen s' = seen s → inv s'.
Proof.
  intros [Hlen Hnd Hseen Hgate] Hout Hs.
  split; rewrite ?Hout, ?Hs; done.
Qed.

Lemma take_region_inv (s : state) iid score :
  inv s → length (out s) < top_n →
  inv (take_region region_norm threshold s iid score).
Proof.
  intros Hinv Hlt. unfold take_region.
  destruct (negb (bool_decide (iid ∈ seen s))
            && Qle_bool threshold (dict_get_or region_norm iid 0%Q)) eqn:E.
  - apply andb_true_iff in E as [E1 E2].
    apply negb_true_iff, bool_decide_eq_false in E1.
    apply Qle_bool_iff in E2.
    eapply append_inv with (src := Region); eauto.
  - eapply same_out_inv; eauto.
Qed.

Lemma emit_global_inv (s : state) iid score t :
  inv s → length (out s) < top_n → inv (emit_global s iid score t).
Proof.
  intros Hinv Hlt. unfold emit_global.
  destruct (negb (bool_decide (iid ∈ seen s))) eqn:E.
  - apply negb_true_iff, bool_decide_eq_false in E.
    eapply append_inv with (src := Global); eauto. discriminate.
  - eapply same_out_inv; eauto.
Qed.

Lemma backfill_cond_true (s : state) :
  backfill_cond b top_n s = true ↔ length (out s) < top_n ∧ ib s < length b.
Proof.
  unfold backfill_cond. rewrite andb_true_iff, !Nat.ltb_lt. tauto.
Qed.

Lemma loop_cond_true (s : state) :
  loop_cond a b top_n s = true ↔
  length (out s) < top_n ∧ (ia s < length a ∨ ib s < length b).
Proof.
  unfold loop_cond. rewrite andb_true_iff, orb_true_iff, !Nat.ltb_lt. tauto.
Qed.

Lemma backfill_inv fuel : ∀ s s' : state,
  inv s → backfill b top_n fuel s = Some s' → inv s'.
Proof.
  induction fuel as [|fuel IH]; intros s s' Hinv; simpl.
  - destruct (backfill_cond b top_n s); [discriminate|]. congruence.
  - destruct (backfill_cond b top_n s) eqn:E; [|congruence].
    apply backfill_cond_true in E as [Hlt _].
    destruct (b !! ib s) as [[iid score]|]; [|discriminate].
    apply IH. by apply emit_global_inv.
Qed.

Lemma body_inv fuel (s : state) :
  inv s → length (out s) < top_n →
  match body a b region_norm threshold top_n fuel s with
  | Some (Continue s') | Some (Break s') => inv s'
  | None => True
  end.
Proof.
  intros Hinv Hlt. unfold body.
  assert (Hex : match exhausted_branch a b region_norm threshold top_n fuel s with
                | Some (Continue s') | Some (Break s') => inv s'
                | None => True
                end).
  { unfold exhausted_branch.
    destruct (_ || _).
    - destruct (backfill b top_n fuel s) eqn:E; simpl; [|done].
      eapply backfill_inv; eauto.
    - eapply same_out_inv; eauto. }
  destruct (turn s), (a !! ia s) as [[iid score]|], (b !! ib s) as [[iid' score']|];
    auto using take_region_inv, emit_global_inv.
Qed.

Lemma loop_preserves_inv fuel : ∀ s s' : state,
  inv s → loop a b region_norm threshold top_n fuel s = Some s' → inv s'.
Proof.
  induction fuel as [|fuel IH]; intros s s' Hinv; simpl.
  - destruct (loop_cond a b top_n s); [discriminate|]. congruence.
  - destruct (loop_cond a b top_n s) eqn:E; [|congruence].
    apply loop_cond_true in E as [Hlt _].
    pose proof (body_inv fuel s Hinv Hlt) as Hb.
    destruct (body a b region_norm threshold top_n fuel s) as [[s1|s1]|];
      [by apply IH| congruence | discriminate].
Qed.

Lemma take_region_fields (s : state) iid score :
  let s' := take_region region_norm threshold s iid score in
  ia s' = S (ia s) ∧ ib s' = ib s ∧ turn s' = TurnGlobal.
Proof. unfold take_region. by destruct (_ && _). Qed.

Lemma emit_global_fields (s : state) iid score t :
  let s' := emit_global s iid score t in
  ia s' = ia s ∧ ib s' = S (ib s) ∧ turn s' = t.
Proof. unfold emit_global. by destruct (negb _). Qed.

(** *** Termination *)

Lemma backfill_terminates fuel : ∀ s : state,
  length b - ib s ≤ fuel → ∃ s', backfill b top_n fuel s = Some s'.
Proof.
  induction fuel as [|fuel IH]; intros s Hfuel; simpl.
  - destruct (backfill_cond b top_n s) eqn:E; [|eauto].
    apply backfill_cond_true in E. lia.
  - destruct (backfill_cond b top_n s) eqn:E; [|eauto].
    apply backfill_cond_true in E as [_ Hib].
    destruct (lookup_lt_is_Some_2 b (ib s) Hib) as [[iid score] Hb].
    rewrite Hb. apply IH.
    destruct (emit_global_fields s iid score (turn s)) as (_ & -> & _). lia.
Qed.

Lemma backfill_mono fuel : ∀ fuel' (s s' : state),
  backfill b top_n fuel s = Some s' → fuel ≤ fuel' →
  backfill b top_n fuel' s = Some s'.
Proof.
  induction fuel as [|fuel IH]; intros fuel' s s'; simpl.
  - destruct (backfill_cond b top_n s) eqn:E; [discriminate|].
    intros H _. destruct fuel'; simpl; by rewrite E.
  - destruct (backfill_cond b top_n s) eqn:E.
    + destruct (b !! ib s) as [[iid score]|] eqn:Hb; [|discriminate].
      intros H Hle. destruct fuel' as [|fuel']; [lia|].
      simpl. rewrite E, Hb. apply IH; [done|lia].
    + intros H _. destruct fuel'; simpl; by rewrite E.
Qed.

(** The four ways an iteration of the outer loop can go. *)
Lemma body_cases fuel (s : state) :
  length b - ib s ≤ fuel →
  (∃ iid score, turn s = TurnRegion ∧ a !! ia s = Some (iid, score)
     ∧ body a b region_norm threshold top_n fuel s
       = Some (Continue (take_region region_norm threshold s iid score)))
  ∨ (∃ iid score, turn s = TurnGlobal ∧ b !! ib s = Some (iid, score)
     ∧ body a b region_norm threshold top_n fuel s
       = Some (Continue (emit_global s iid score TurnRegion)))
  ∨ (∃ s', backfill b top_n fuel s = Some s'
     ∧ body a b region_norm threshold top_n fuel s = Some (Break s'))
  ∨ (turn s = TurnGlobal ∧ length b ≤ ib s ∧ ia s < length a
     ∧ body a b region_norm threshold top_n fuel s
       = Some (Continue (set_turn s TurnRegion))).
Proof.
  intros Hfuel.
  destruct (backfill_terminates fuel s Hfuel) as [sb Hsb].
  unfold body, exhausted_branch.
  destruct (turn s) eqn:Ht, (a !! ia s) as [[iid score]|] eqn:Ha.
  - left. eauto.
  - right; right; left. apply lookup_ge_None in Ha.
    destruct (b !! ib s) as [[??]|];
      (replace (length a <=? ia s) with true
         by (symmetry; by apply Nat.leb_le));
      simpl; rewrite Hsb; eauto.
  - destruct (b !! ib s) as [[iid' score']|] eqn:Hb.
    + right; left. eauto.
    + destruct (_ || _).
      * right; right; left. rewrite Hsb. eauto.
      * right; right; right. apply lookup_ge_None in Hb.
        apply lookup_lt_Some in Ha. eauto.
  - destruct (b !! ib s) as [[iid' score']|] eqn:Hb.
    + right; left. eauto.
    + right; right; left. apply lookup_ge_None in Ha.
      replace (length a <=? ia s) with true by (symmetry; by apply Nat.leb_le).
      simpl. rewrite Hsb. eauto.
Qed.

Lemma body_decreases fuel (s : state) :
  length b - ib s ≤ fuel →
  match body a b region_norm threshold top_n fuel s with
  | Some (Continue s') =>
      loop_measure a b s' < loop_measure a b s ∧ ib s ≤ ib s'
  | Some (Break _) => True
  | None => False
  end.
Proof.
  intros Hfuel.
  destruct (body_cases fuel s Hfuel)
    as [(iid & score & Ht & Ha & ->)|[(iid & score & Ht & Hb & ->)
       |[(s' & _ & ->)|(Ht & Hb & Ha & ->)]]]; [| | done |].
  - destruct (take_region_fields s iid score) as (Hia & Hib & Hturn).
    apply lookup_lt_Some in Ha.
    unfold loop_measure. rewrite Hia, Hib, Hturn, Ht.
    destruct (ib s <? length b); lia.
  - destruct (emit_global_fields s iid score TurnRegion) as (Hia & Hib & Hturn).
    apply lookup_lt_Some in Hb.
    unfold loop_measure. rewrite Hia, Hib, Hturn, Ht.
    replace (ib s <? length b) with true by (symmetry; by apply Nat.ltb_lt).
    lia.
  - unfold loop_measure, set_turn. simpl. rewrite Ht.
    replace (ib s <? length b) with false by (symmetry; apply Nat.ltb_ge; lia).
    lia.
Qed.

Lemma loop_terminates fuel : ∀ s : state,
  loop_measure a b s + (length b - ib s) < fuel →
  ∃ s', loop a b region_norm threshold top_n fuel s = Some s'.
Proof.
  induction fuel as [|fuel IH]; intros s Hfuel; [lia|]. simpl.
  destruct (loop_cond a b top_n s); [|eauto].
  assert (Hb : length b - ib s ≤ fuel) by lia.
  pose proof (body_decreases fuel s Hb) as Hdec.
  destruct (body a b region_norm threshold top_n fuel s) as [[s1|s1]|];
    [|eauto|done].
  destruct Hdec as [Hm Hib]. apply IH. lia.
Qed.

Lemma loop_mono fuel : ∀ fuel' (s s' : state),
  loop a b region_norm threshold top_n fuel s = Some s' → fuel ≤ fuel' →
  loop a b region_norm threshold top_n fuel' s = Some s'.
Proof.
  induction fuel as [|fuel IH]; intros fuel' s s'; simpl.
  - destruct (loop_cond a b top_n s) eqn:E; [discriminate|].
    intros H _. destruct fuel'; simpl; by rewrite E.
  - destruct (loop_cond a b top_n s) eqn:E.
    + intros H Hle. destruct fuel' as [|fuel']; [lia|]. simpl. rewrite E.
      assert (Hbody : ∀ o, body a b region_norm threshold top_n fuel s = Some o →
                body a b region_norm threshold top_n fuel' s = Some o).
      { intros o. unfold body, exhausted_branch.
        destruct (turn s), (a !! ia s) as [[??]|], (b !! ib s) as [[??]|];
          try done; destruct (_ || _); try done;
          destruct (backfill b top_n fuel s) eqn:Eb; try discriminate;
          (erewrite backfill_mono; [done|exact Eb|lia]). }
      destruct (body a b region_norm threshold top_n fuel s) as [o|] eqn:Eo;
        [|discriminate].
      rewrite (Hbody o eq_refl). destruct o; [|done]. apply IH; [done|lia].
    + intros H _. destruct fuel'; simpl; by rewrite E.
Qed.

Lemma init_fuel_enough :
  loop_measure a b (@init_state Score) + (length b - ib (@init_state Score))
  < fuel_bound a b.
Proof. unfold loop_measure, fuel_bound. simpl. lia. Qed.

Lemma interleave_pairs_run :
  ∃ s, loop a b region_norm threshold top_n (fuel_bound a b) init_state = Some s
       ∧ interleave_pairs a b region_norm threshold top_n = out s.
Proof.
  destruct (loop_terminates _ _ init_fuel_enough) as [s Hs].
  exists s. split; [done|]. unfold interleave_pairs. by rewrite Hs.
Qed.

Lemma interleave_pairs_inv :
  ∃ s, inv s ∧ interleave_pairs a b region_norm threshold top_n = out s.
Proof.
  destruct interleave_pairs_run as (s & Hs & Hout).
  exists s. split; [|done].
  eapply loop_preserves_inv; [apply init_inv|exact Hs].
Qed.

End InterleaveProofs.

(** *** Backfill and first occurrences *)

Lemma first_occurrences_fresh {Score} (l : list (Z * Score)) : ∀ seen,
  Forall (λ x, x.1 ∉ seen) (first_occurrences seen l).
Proof.
  induction l as [|[iid score] l IH]; intros seen; simpl; [constructor|].
  case_bool_decide as Hin; [apply IH|].
  constructor; [done|].
  eapply Forall_impl; [apply IH|]. simpl. set_solver.
Qed.

(** No id is kept twice. *)
Lemma first_occurrences_nodup {Score} (l : list (Z * Score)) : ∀ seen,
  NoDup (first_occurrences seen l).*1.
Proof.
  induction l as [|[iid score] l IH]; intros seen; simpl; [constructor|].
  case_bool_decide as Hin; [apply IH|].
  rewrite fmap_cons. constructor; [|apply IH]. simpl.
  intros Hdup. apply list_elem_of_fmap in Hdup as (x & Hx1 & Hx2).
  pose proof (first_occurrences_fresh l ({[iid]} ∪ seen)) as Hfresh.
  rewrite Forall_forall in Hfresh. apply Hfresh in Hx2. set_solver.
Qed.

(** The original order is kept. *)
Lemma first_occurrences_sublist {Score} (l : list (Z * Score)) : ∀ seen,
  sublist (first_occurrences seen l) l.
Proof.
  induction l as [|[iid score] l IH]; intros seen; simpl; [constructor|].
  case_bool_decide; [apply sublist_cons|apply sublist_skip]; apply IH.
Qed.

(** Every id that is not excluded is kept. *)
Lemma first_occurrences_complete {Score} (l : list (Z * Score)) : ∀ seen x,
  x ∈ l → x.1 ∉ seen → x.1 ∈ (first_occurrences seen l).*1.
Proof.
  induction l as [|[iid score] l IH]; intros seen x Hx Hfresh; simpl.
  - by apply elem_of_nil in Hx.
  - apply elem_of_cons in Hx as [->|Hx]; simpl in *.
    + rewrite bool_decide_eq_false_2 by done. rewrite fmap_cons. left.
    + case_bool_decide as Hin; [by apply IH|].
      rewrite fmap_cons. simpl.
      destruct (decide (x.1 = iid)) as [Heq|Hne]; [rewrite Heq; left|].
      right. apply IH; [done|].
      rewrite elem_of_union, elem_of_singleton. tauto.
Qed.

Lemma backfill_out {Score} (b : list (Z * Score)) top_n fuel :
  ∀ s s' : loop_state,
  backfill b top_n fuel s = Some s' →
  out s' = out s ++ take (top_n - length (out s))
                         (tag_global <$> first_occurrences (seen s) (drop (ib s) b)).
Proof.
  assert (Hstop : ∀ s : @loop_state Score, backfill_cond b top_n s = false →
            out s = out s ++ take (top_n - length (out s))
                     (tag_global <$> first_occurrences (seen s) (drop (ib s) b))).
  { intros s E. unfold backfill_cond in E.
    apply andb_false_iff in E as [E|E].
    - apply Nat.ltb_ge in E.
      replace (top_n - length (out s)) with 0 by lia.
      by rewrite take_0, app_nil_r.
    - apply Nat.ltb_ge in E. rewrite drop_ge by done. simpl.
      by rewrite take_nil, app_nil_r. }
  induction fuel as [|fuel IH]; intros s s'; simpl.
  - destruct (backfill_cond b top_n s) eqn:E; [discriminate|].
    intros [= <-]. by apply Hstop.
  - destruct (backfill_cond b top_n s) eqn:E; [|intros [= <-]; by apply Hstop].
    apply backfill_cond_true in E as [Hlt Hib].
    destruct (b !! ib s) as [[iid score]|] eqn:Hb; [|discriminate].
    intros Hrun. apply IH in Hrun. rewrite Hrun.
    rewrite (drop_S _ _ _ Hb). simpl. unfold emit_global.
    case_bool_decide as Hin; simpl; [done|].
    rewrite length_app. simpl. rewrite <- app_assoc. simpl.
    replace (top_n - length (out s)) with (S (top_n - (length (out s) + 1))) by lia.
    done.
Qed.

Lemma loop_unfold {Score} (a b : list (Z * Score)) region_norm threshold top_n
    fuel (s : loop_state) :
  loop a b region_norm threshold top_n (S fuel) s
  = if loop_cond a b top_n s then
      match body a b region_norm threshold top_n fuel s with
      | Some (Continue s') => loop a b region_norm threshold top_n fuel s'
      | Some (Break s') => Some s'
      | None => None
      end
    else Some s.
Proof. reflexivity. Qed.

(** ** Claims on the interleaver *)

(** C2. For all region and global lists, every normalised-score map, every
    threshold and every [top_n], the output of [interleave_pairs] has at most
    [top_n] entries, carries no item id twice, and each of its entries
    tagged region has a normalised regional score (0.0 when the map has
    none) greater than or equal to the threshold. *)
Theorem interleave_pairs_bounded_distinct_gated {Score}
    (a b : list (Z * Score)) (region_norm : gmap Z Q) (threshold : Q) (top_n : nat) :
  let result := interleave_pairs a b region_norm threshold top_n in
  length result ≤ top_n
  ∧ NoDup result.*1.*1
  ∧ Forall (λ e, (threshold <= dict_get_or region_norm e.1.1 0)%Q)
           (filter (λ e, e.2 = Region) result).
Proof.
  destruct (interleave_pairs_inv a b region_norm threshold top_n)
    as (s & [Hlen Hnd _ Hgate] & Hout).
  simpl. rewrite Hout. auto.
Qed.

(** C7. With an empty region list, for every global list, score map,
    threshold and [top_n], the output of [interleave_pairs] is the global
    list in its original order, restricted to the first occurrence of each
    id, every entry tagged global, cut to [top_n] entries. *)
Theorem interleave_pairs_empty_region {Score}
    (b : list (Z * Score)) (region_norm : gmap Z Q) (threshold : Q) (top_n : nat) :
  interleave_pairs [] b region_norm threshold top_n
  = take top_n (tag_global <$> first_occurrences ∅ b).
Proof.
  destruct (interleave_pairs_run [] b region_norm threshold top_n)
    as (s & Hs & ->).
  unfold fuel_bound in Hs. simpl length in Hs.
  replace (2 * 0 + 3 * length b + 1) with (S (3 * length b)) in Hs by lia.
  rewrite loop_unfold in Hs.
  destruct (loop_cond [] b top_n init_state) eqn:E.
  - change (body [] b region_norm threshold top_n (3 * length b) init_state)
      with (Break <$> backfill b top_n (3 * length b) init_state) in Hs.
    destruct (backfill b top_n (3 * length b) init_state) as [s1|] eqn:Hb;
      simpl in Hs; [|discriminate].
    injection Hs as <-. apply backfill_out in Hb. rewrite Hb. simpl.
    by rewrite Nat.sub_0_r, drop_0.
  - injection Hs as <-. simpl. unfold loop_cond in E. simpl in E.
    apply andb_false_iff in E as [E|E]; apply Nat.ltb_ge in E.
    + replace top_n with 0 by lia. by rewrite take_0.
    + destruct b; [simpl; by rewrite take_nil|simpl in E; lia].
Qed.

(** C10. [interleave_pairs] terminates on every input: the loop finishes
    within [fuel_bound] iterations (more fuel changes nothing) and returns
    the function's result; and every iteration entered with enough fuel for
    the inner loop either advances the region cursor, advances the global
    cursor, leaves through the backfill branch, or hands the turn back to
    the region side in a state whose next iteration advances the region
    cursor. *)
Theorem interleave_pairs_terminates {Score}
    (a b : list (Z * Score)) (region_norm : gmap Z Q) (threshold : Q) (top_n : nat) :
  (∀ fuel, fuel_bound a b ≤ fuel →
     ∃ s, loop a b region_norm threshold top_n fuel init_state = Some s
          ∧ out s = interleave_pairs a b region_norm threshold top_n)
  ∧ (∀ fuel s, loop_cond a b top_n s = true → length b ≤ fuel →
       iteration_progress a b region_norm threshold top_n fuel s).
Proof.
  split.
  - intros fuel Hfuel.
    destruct (interleave_pairs_run a b region_norm threshold top_n)
      as (s & Hs & Hout).
    exists s. split; [|done]. eapply loop_mono; eauto.
  - intros fuel s Hcond Hfuel. unfold iteration_progress.
    assert (Hf : length b - ib s ≤ fuel) by lia.
    apply loop_cond_true in Hcond as [Hlt _].
    destruct (body_cases a b region_norm threshold top_n fuel s Hf)
      as [(iid & score & Ht & Ha & ->)|[(iid & score & Ht & Hb & ->)
         |[(s' & _ & ->)|(Ht & Hb & Ha & ->)]]]; [| | done |].
    + left. destruct (take_region_fields region_norm threshold s iid score)
        as (? & ? & _). by split.
    + right; left. destruct (emit_global_fields s iid score TurnRegion)
        as (? & ? & _). by split.
    + right; right. unfold hands_back. simpl.
      repeat (split; [done|]). split.
      { apply loop_cond_true. simpl. auto. }
      destruct (lookup_lt_is_Some_2 a (ia s) Ha) as [[iid score] Hl].
      exists (take_region region_norm threshold (set_turn s TurnRegion) iid score).
      split.
      * unfold body. simpl. by rewrite Hl.
      * destruct (take_region_fields region_norm threshold
                    (set_turn s TurnRegion) iid score) as (? & ? & _).
        by split.
Qed.

(** ** Division and the normalisers *)

Lemma py_div_ok x y : ¬ (y == 0)%Q → py_div x y = Ok (x / y)%Q.
Proof.
  intros Hy. unfold py_div.
  destruct (Qeq_bool y 0) eqn:E; [|done].
  by apply Qeq_bool_iff in E.
Qed.

Lemma py_min2_le_l x y : (py_min2 x y <= x)%Q.
Proof.
  unfold py_min2. destruct (Qlt_bool y x) eqn:E.
  - apply Qlt_bool_iff in E. by apply Qlt_le_weak.
  - apply Qle_refl.
Qed.

Lemma py_max2_ge_l x y : (x <= py_max2 x y)%Q.
Proof.
  unfold py_max2. destruct (Qlt_bool x y) eqn:E.
  - apply Qlt_bool_iff in E. by apply Qlt_le_weak.
  - apply Qle_refl.
Qed.

Lemma py_min_le_first l : ∀ x, (py_min x l <= x)%Q.
Proof.
  induction l as [|y l IH]; intros x; simpl; [apply Qle_refl|].
  eapply Qle_trans; [apply IH|apply py_min2_le_l].
Qed.

Lemma py_max_ge_first l : ∀ x, (x <= py_max x l)%Q.
Proof.
  induction l as [|y l IH]; intros x; simpl; [apply Qle_refl|].
  eapply Qle_trans; [apply py_max2_ge_l|apply IH].
Qed.

Lemma eps_denominator_pos v0 vs : (0 < eps_denominator v0 vs)%Q.
Proof.
  unfold eps_denominator.
  pose proof (py_min_le_first vs v0). pose proof (py_max_ge_first vs v0).
  assert (0 < epsilon)%Q by done.
  lra.
Qed.

Lemma mapM_div_ok (lo den : Q) (d : odict Q) :
  ¬ (den == 0)%Q →
  mapM (λ '(k, v), q ← py_div (v - lo)%Q den; Ok (k, q)) d
  = Ok ((λ kv, (kv.1, ((kv.2 - lo) / den)%Q)) <$> d).
Proof.
  intros Hden. induction d as [|[k v] d IH]; [done|].
  simpl. rewrite py_div_ok by done. simpl.
  rewrite IH. done.
Qed.

(** [minmax_dict] in closed form: it returns, and divides by a positive
    number. *)
Lemma minmax_dict_closed_form (d : odict Q) :
  ∃ lo den, (0 < den)%Q
    ∧ (∀ v0 vs, d.*2 = v0 :: vs → lo = py_min v0 vs ∧ den = eps_denominator v0 vs)
    ∧ minmax_dict d = Ok ((λ kv, (kv.1, ((kv.2 - lo) / den)%Q)) <$> d).
Proof.
  unfold minmax_dict. destruct (d.*2) as [|v0 vs] eqn:E.
  - exists 0%Q, 1%Q. split; [done|]. split; [done|].
    destruct d; [done|discriminate].
  - exists (py_min v0 vs), (eps_denominator v0 vs).
    pose proof (eps_denominator_pos v0 vs) as Hpos.
    split; [done|]. split; [by intros ?? [= <- <-]|].
    apply mapM_div_ok. intros Hz. rewrite Hz in Hpos. by apply Qlt_irrefl in Hpos.
Qed.

(** C4. The epsilon variant of min-max never divides by zero: on every
    mapping it returns (no [ZeroDivisionError]) a mapping with the same keys,
    the denominator it divides by is never zero, and on a mapping with one
    item it returns 0.0 for that item. *)
Theorem minmax_dict_never_divides_by_zero :
  (∀ d : odict Q, ∃ r, minmax_dict d = Ok r ∧ r.*1 = d.*1)
  ∧ (∀ v0 vs, ¬ (eps_denominator v0 vs == 0)%Q)
  ∧ (∀ k v, ∃ q, minmax_dict [(k, v)] = Ok [(k, q)] ∧ (q == 0)%Q).
Proof.
  split; [|split].
  - intros d. destruct (minmax_dict_closed_form d) as (lo & den & _ & _ & ->).
    eexists. split; [done|].
    rewrite <- list_fmap_compose. done.
  - intros v0 vs Hz. pose proof (eps_denominator_pos v0 vs) as Hpos.
    rewrite Hz in Hpos. by apply Qlt_irrefl in Hpos.
  - intros k v.
    destruct (minmax_dict_closed_form [(k, v)]) as (lo & den & Hpos & Hlo & ->).
    destruct (Hlo v [] eq_refl) as [-> ->]. simpl.
    eexists. split; [done|].
    unfold py_min. simpl. unfold Qdiv. ring.
Qed.

Lemma dict_comprehension_const (vals : list (Z * Z)) : ∀ acc : gmap Z Q,
  ∃ m, dict_comprehension (λ '(iid, _), Ok (iid, 1%Q)) vals acc = Ok m
       ∧ ∀ k, acc !! k = Some 1%Q ∨ k ∈ vals.*1 → m !! k = Some 1%Q.
Proof.
  induction vals as [|[iid v] vals IH]; intros acc; simpl.
  - exists acc. split; [done|]. intros k [H|H]; [done|].
    by apply elem_of_nil in H.
  - destruct (IH (<[iid := 1%Q]> acc)) as (m & Hm & Hlook).
    exists m. split; [done|]. intros k Hk. apply Hlook.
    destruct (decide (k = iid)) as [->|Hne].
    + left. apply lookup_insert_eq.
    + rewrite lookup_insert_ne by done.
      destruct Hk as [Hk|Hk]; [by left|right].
      apply elem_of_cons in Hk as [Hk|Hk]; [done|done].
Qed.

Lemma foldl_min_const c (vs : list Z) :
  Forall (λ v, v = c) vs → foldl Z.min c vs = c.
Proof.
  induction 1 as [|v vs -> _ IH]; simpl; [done|]. by rewrite Z.min_id.
Qed.

Lemma foldl_max_const c (vs : list Z) :
  Forall (λ v, v = c) vs → foldl Z.max c vs = c.
Proof.
  induction 1 as [|v vs -> _ IH]; simpl; [done|]. by rewrite Z.max_id.
Qed.

(** When all counts are equal, the cold-start normaliser maps every item
    to 1.0, whatever the shared count is. *)
Lemma minmax_norm_all_equal (vals : list (Z * Z)) (c : Z) :
  Forall (λ x, x.2 = c) vals →
  ∃ m, minmax_norm vals = Ok m ∧ Forall (λ x, m !! x.1 = Some 1%Q) vals.
Proof.
  intros Hall. unfold minmax_norm.
  destruct vals as [|[iid v] vals]; simpl.
  - exists ∅. split; [done|constructor].
  - apply Forall_cons in Hall as [Hv Hall]. simpl in Hv. subst v.
    assert (Hvs : Forall (λ v, v = c) vals.*2).
    { apply Forall_fmap. eapply Forall_impl; [exact Hall|done]. }
    rewrite foldl_min_const, foldl_max_const by done.
    rewrite Z.eqb_refl.
    destruct (dict_comprehension_const vals (<[iid := 1%Q]> ∅)) as (m & Hm & Hl).
    exists m. split; [done|].
    constructor.
    + simpl. apply Hl. left. apply lookup_insert_eq.
    + apply Forall_forall. intros x Hx. apply Hl. right.
      apply list_elem_of_fmap. eauto.
Qed.

(** C1, at the failing input.  On the counts [(1, 0); (2, 0)], all equal to
    zero, the cold-start normaliser [minmax_norm] gives both items the score
    1.0 (and not 0.0). *)
Theorem minmax_norm_equal_zero_counts :
  ∃ m, minmax_norm [(1, 0); (2, 0)]%Z = Ok m
       ∧ m !! 1%Z = Some 1%Q ∧ m !! 2%Z = Some 1%Q
       ∧ m !! 1%Z ≠ Some 0%Q.
Proof.
  destruct (minmax_norm_all_equal [(1, 0); (2, 0)]%Z 0%Z) as (m & Hm & Hall).
  { repeat constructor. }
  exists m. split; [done|].
  apply Forall_cons in Hall as [H1 Hall].
  apply Forall_cons in Hall as [H2 _]. simpl in *.
  rewrite H1, H2. repeat split; congruence.
Qed.

(** ** The blend weight *)

Lemma inject_Z_pos n : (0 < n)%Z → (0 < inject_Z n)%Q.
Proof. intros H. unfold Qlt. simpl. lia. Qed.

Lemma adaptive_alpha_pos n :
  (0 < n)%Z → _adaptive_alpha n 3 = Ok (inject_Z n / (inject_Z n + 3))%Q.
Proof.
  intros Hn. unfold _adaptive_alpha.
  destruct (n <=? 0)%Z eqn:E; [apply Z.leb_le in E; lia|].
  apply py_div_ok. pose proof (inject_Z_pos n Hn). intros Hz. lra.
Qed.

Lemma adaptive_alpha_nonpos n : (n ≤ 0)%Z → _adaptive_alpha n 3 = Ok 0%Q.
Proof.
  intros Hn. unfold _adaptive_alpha.
  destruct (n <=? 0)%Z eqn:E; [done|apply Z.leb_gt in E; lia].
Qed.

Lemma ratio_bounds x : (0 < x → 0 < x / (x + 3) ∧ x / (x + 3) < 1)%Q.
Proof.
  intros Hx. split.
  - apply Qlt_shift_div_l; lra.
  - apply Qlt_shift_div_r; lra.
Qed.

Lemma ratio_monotone x y : (0 < x → x <= y → x / (x + 3) <= y / (y + 3))%Q.
Proof.
  intros Hx Hxy.
  apply Qle_shift_div_r; [lra|].
  assert (Heq : (y / (y + 3) * (x + 3) == y * (x + 3) / (y + 3))%Q)
    by (field; lra).
  rewrite Heq. apply Qle_shift_div_l; [lra|]. nra.
Qed.

Lemma blend_alpha_closed_form (n : nat) :
  ∃ x, blend_alpha n = Ok x
       ∧ (x == inject_Z (Z.of_nat n) / (inject_Z (Z.of_nat n) + 3))%Q.
Proof.
  unfold blend_alpha.
  assert (Hsum : inject_Z (Z.of_nat n + 3) = (inject_Z (Z.of_nat n) + 3)%Q)
    by apply inject_Z_plus.
  rewrite Hsum.
  assert (H0 : (0 <= inject_Z (Z.of_nat n))%Q) by (unfold Qle; simpl; lia).
  rewrite py_div_ok by lra. simpl. eexists. split; [done|].
  set (x := (inject_Z (Z.of_nat n) / (inject_Z (Z.of_nat n) + 3))%Q).
  assert (Hx : (x == inject_Z (Z.of_nat n) / (inject_Z (Z.of_nat n) + 3))%Q)
    by done.
  clearbody x. clear Hsum H0.
  destruct (Z.of_nat n) as [|p|p] eqn:En; [| |lia].
  - assert (Hx0 : (x == 0)%Q) by (rewrite Hx; reflexivity).
    unfold py_max2. rewrite (proj2 (Qlt_bool_false_iff 0 x)) by lra.
    unfold py_min2. simpl. lra.
  - pose proof (ratio_bounds (inject_Z (Z.pos p))
                  (inject_Z_pos (Z.pos p) (Pos2Z.is_pos p))) as [Hlo Hhi].
    rewrite <- Hx in Hlo, Hhi.
    unfold py_max2. rewrite (proj2 (Qlt_bool_iff 0 x)) by done.
    unfold py_min2. rewrite (proj2 (Qlt_bool_iff x 1)) by done.
    done.
Qed.

(** C3. The adaptive blend weight [basket_size / (basket_size + c)] with
    [c = 3.0] never decreases when the basket grows, is 1/4 for one item,
    1/2 for three and 3/4 for nine; the weight that [recommend] computes
    inline is the same number. *)
Theorem adaptive_alpha_monotone_and_values :
  (∀ n m : Z, (n ≤ m)%Z →
     ∃ x y, _adaptive_alpha n 3 = Ok x ∧ _adaptive_alpha m 3 = Ok y ∧ (x <= y)%Q)
  ∧ (∃ x, _adaptive_alpha 1 3 = Ok x ∧ (x == 1 # 4)%Q)
  ∧ (∃ x, _adaptive_alpha 3 3 = Ok x ∧ (x == 1 # 2)%Q)
  ∧ (∃ x, _adaptive_alpha 9 3 = Ok x ∧ (x == 3 # 4)%Q)
  ∧ (∀ n : nat, ∃ x y, blend_alpha n = Ok x
       ∧ _adaptive_alpha (Z.of_nat n) 3 = Ok y ∧ (x == y)%Q).
Proof.
  split; [|split; [|split; [|split]]].
  - intros n m Hnm.
    destruct (Z_lt_le_dec 0 n) as [Hn|Hn].
    + rewrite !adaptive_alpha_pos by lia. do 2 eexists. do 2 (split; [done|]).
      apply ratio_monotone; [by apply inject_Z_pos|].
      by rewrite <- Zle_Qle.
    + rewrite (adaptive_alpha_nonpos n) by done.
      destruct (Z_lt_le_dec 0 m) as [Hm|Hm].
      * rewrite adaptive_alpha_pos by done. do 2 eexists. do 2 (split; [done|]).
        apply Qlt_le_weak, ratio_bounds. by apply inject_Z_pos.
      * rewrite adaptive_alpha_nonpos by done. do 2 eexists.
        do 2 (split; [done|]). apply Qle_refl.
  - eexists. split; [by vm_compute|done].
  - eexists. split; [by vm_compute|done].
  - eexists. split; [by vm_compute|done].
  - intros n. destruct (blend_alpha_closed_form n) as (x & Hx & Hxe).
    destruct (Z.of_nat n) as [|p|p] eqn:En; [| |lia].
    + exists x, 0%Q. rewrite Hx. do 2 (split; [done|]). rewrite Hxe. done.
    + rewrite adaptive_alpha_pos by done. do 2 eexists. by do 2 (split; [done|]).
Qed.

(** ** Insertion-ordered dictionaries *)

Lemma od_set_keys {V} (d : odict V) k v x :
  x ∈ (od_set d k v).*1 ↔ x = k ∨ x ∈ d.*1.
Proof.
  induction d as [|[k' v'] d IH]; simpl.
  - rewrite list_elem_of_singleton. split; [auto|].
    intros [H|H]; [done|by apply elem_of_nil in H].
  - destruct (decide (k = k')) as [->|Hne]; simpl.
    + rewrite !elem_of_cons. tauto.
    + rewrite !elem_of_cons, IH. tauto.
Qed.

Lemma od_set_nodup {V} (d : odict V) k v : NoDup d.*1 → NoDup (od_set d k v).*1.
Proof.
  induction d as [|[k' v'] d IH]; simpl; intros Hnd.
  - apply NoDup_singleton.
  - apply NoDup_cons in Hnd as [Hk' Hnd].
    destruct (decide (k = k')) as [->|Hne]; simpl.
    + by apply NoDup_cons.
    + apply NoDup_cons. split; [|by apply IH].
      rewrite od_set_keys. intros [H|H]; [congruence|by apply Hk'].
Qed.

Lemma od_set_elem {V} (d : odict V) k v x :
  x ∈ od_set d k v → x = (k, v) ∨ x ∈ d.
Proof.
  induction d as [|[k' v'] d IH]; simpl.
  - rewrite list_elem_of_singleton. auto.
  - destruct (decide (k = k')) as [->|Hne]; rewrite !elem_of_cons.
    + tauto.
    + intros [->|H]; [auto|]. destruct (IH H); auto.
Qed.

Lemma od_set_Forall {V} (P : Z * V → Prop) (d : odict V) k v :
  Forall P d → P (k, v) → Forall P (od_set d k v).
Proof.
  rewrite !Forall_forall. intros Hd Hkv x Hx.
  destruct (od_set_elem d k v x Hx) as [->|Hin]; auto.
Qed.

Lemma od_get_None {V} (d : odict V) k : k ∉ d.*1 → od_get d k = None.
Proof.
  induction d as [|[k' v'] d IH]; simpl; [done|].
  rewrite not_elem_of_cons. intros [Hne Hk].
  destruct (decide (k = k')); [done|auto].
Qed.

Lemma od_get_Some_elem {V} (d : odict V) k v : od_get d k = Some v → (k, v) ∈ d.
Proof.
  induction d as [|[k' v'] d IH]; simpl; [done|].
  destruct (decide (k = k')) as [->|Hne].
  - intros [= ->]. left.
  - intros H. right. auto.
Qed.

Lemma od_get_elem {V} (d : odict V) k v :
  NoDup d.*1 → (k, v) ∈ d → od_get d k = Some v.
Proof.
  induction d as [|[k' v'] d IH]; simpl; intros Hnd Hin.
  - by apply elem_of_nil in Hin.
  - apply NoDup_cons in Hnd as [Hk' Hnd].
    apply elem_of_cons in Hin as [[= -> ->]|Hin].
    + by rewrite decide_True.
    + rewrite decide_False; [auto|].
      intros ->. apply Hk'. apply list_elem_of_fmap. by exists (k', v).
Qed.

Lemma od_get_fmap_values {V W} (g : V → W) (d : odict V) k :
  od_get ((λ kv, (kv.1, g kv.2)) <$> d) k = g <$> od_get d k.
Proof.
  induction d as [|[k' v'] d IH]; simpl; [done|].
  destruct (decide (k = k')); [done|auto].
Qed.

Lemma omap_keys_subset {V W} (sel : V → option W) (d : odict V) k :
  k ∈ (omap (λ '(i, s), (λ w, (i, w)) <$> sel s) d).*1 → k ∈ d.*1.
Proof.
  induction d as [|[k' v'] d IH]; simpl; [done|].
  destruct (sel v'); simpl; rewrite !elem_of_cons; [|by right; auto].
  intros [->|H]; auto.
Qed.

(** Selecting one optional component of every entry, as the comprehensions
    [{iid: s["rule"] for iid, s in ... if "rule" in s}] do. *)
Lemma od_get_omap {V W} (sel : V → option W) (d : odict V) k v :
  NoDup d.*1 → (k, v) ∈ d →
  od_get (omap (λ '(i, s), (λ w, (i, w)) <$> sel s) d) k = sel v.
Proof.
  induction d as [|[k' v'] d IH]; simpl; intros Hnd Hin.
  - by apply elem_of_nil in Hin.
  - apply NoDup_cons in Hnd as [Hk' Hnd].
    apply elem_of_cons in Hin as [[= -> ->]|Hin].
    + destruct (sel v') eqn:E; simpl.
      * by rewrite decide_True.
      * apply od_get_None. intros H. by apply omap_keys_subset in H.
    + assert (k ≠ k').
      { intros ->. apply Hk'. apply list_elem_of_fmap. by exists (k', v). }
      destruct (sel v'); simpl; [rewrite decide_False by done|]; auto.
Qed.

(** ** Sorting *)

Lemma insert_desc_perm {A} (key : A → Q) x (l : list A) :
  insert_desc key x l ≡ₚ x :: l.
Proof.
  induction l as [|y l IH]; simpl; [done|].
  destruct (Qle_bool (key y) (key x)); [done|].
  rewrite IH. apply Permutation_swap.
Qed.

Lemma sort_desc_perm {A} (key : A → Q) (l : list A) : sort_desc key l ≡ₚ l.
Proof.
  induction l as [|x l IH]; simpl; [done|].
  rewrite insert_desc_perm. by rewrite IH.
Qed.

Lemma insert_desc_sorted {A} (key : A → Q) x (l : list A) :
  StronglySorted (λ r1 r2, (key r2 <= key r1)%Q) l →
  StronglySorted (λ r1 r2, (key r2 <= key r1)%Q) (insert_desc key x l).
Proof.
  induction 1 as [|y l Hs IH Hy]; simpl.
  - repeat constructor.
  - destruct (Qle_bool (key y) (key x)) eqn:E.
    + apply Qle_bool_iff in E. constructor; [by constructor|].
      constructor; [done|].
      eapply Forall_impl; [exact Hy|]. simpl. intros z Hz.
      eapply Qle_trans; eauto.
    + constructor; [done|].
      rewrite insert_desc_perm. constructor; [|done].
      destruct (Qlt_le_dec (key y) (key x)) as [Hlt|Hle]; [|done].
      apply Qlt_le_weak in Hlt. apply Qle_bool_iff in Hlt. congruence.
Qed.

Lemma sort_desc_sorted {A} (key : A → Q) (l : list A) :
  StronglySorted (λ r1 r2, (key r2 <= key r1)%Q) (sort_desc key l).
Proof.
  induction l as [|x l IH]; simpl; [constructor|].
  by apply insert_desc_sorted.
Qed.

(** ** Candidates of a warm start *)

Lemma collect_rule_candidates_inv self (ranked : list (Z * Q)) :
  NoDup (collect_rule_candidates self ranked).*1
  ∧ Forall (λ kc, (kc.1 ∉ basket self) ∧ is_Some (rule kc.2) ∧ pop kc.2 = None)
           (collect_rule_candidates self ranked).
Proof.
  unfold collect_rule_candidates.
  assert (Hgen : ∀ acc : odict components,
    NoDup acc.*1
    ∧ Forall (λ kc, (kc.1 ∉ basket self) ∧ is_Some (rule kc.2) ∧ pop kc.2 = None) acc →
    NoDup (foldl (λ cs '(iid, score),
                    if bool_decide (iid ∈ basket self) then cs
                    else od_set cs iid {| rule := Some score; pop := None |})
                 acc ranked).*1
    ∧ Forall (λ kc, (kc.1 ∉ basket self) ∧ is_Some (rule kc.2) ∧ pop kc.2 = None)
        (foldl (λ cs '(iid, score),
                  if bool_decide (iid ∈ basket self) then cs
                  else od_set cs iid {| rule := Some score; pop := None |})
               acc ranked)).
  { induction ranked as [|[iid score] ranked IH]; intros acc [Hnd Hall]; simpl.
    - done.
    - apply IH. case_bool_decide as Hin; [done|]. split.
      + by apply od_set_nodup.
      + apply od_set_Forall; [done|]. simpl. eauto. }
  apply Hgen. split; [apply NoDup_nil_2|constructor].
Qed.

Lemma collect_pop_candidates_inv self (pop_rows : list (Z * Z * source))
    (cs : odict components) :
  NoDup cs.*1 → Forall (λ kc, kc.1 ∉ basket self) cs →
  NoDup (collect_pop_candidates self pop_rows cs).*1
  ∧ Forall (λ kc, kc.1 ∉ basket self) (collect_pop_candidates self pop_rows cs).
Proof.
  unfold collect_pop_candidates. revert cs.
  induction pop_rows as [|[[iid score] src] pop_rows IH]; intros cs Hnd Hall; simpl.
  - done.
  - case_bool_decide as Hin; [by apply IH|].
    apply IH; [by apply od_set_nodup|by apply od_set_Forall].
Qed.

(** When no popularity row repeats an id of [K], the ids of [K] keep their
    rule-only components and every other candidate is popularity-only. *)
Lemma collect_pop_candidates_split self (K : list Z)
    (pop_rows : list (Z * Z * source)) : ∀ cs : odict components,
  Forall (λ row, (row.1.1 ∉ K)) pop_rows →
  Forall (λ kc, (kc.1 ∈ K ∧ is_Some (rule kc.2) ∧ pop kc.2 = None)
                ∨ ((kc.1 ∉ K) ∧ rule kc.2 = None ∧ is_Some (pop kc.2))) cs →
  Forall (λ kc, (kc.1 ∈ K ∧ is_Some (rule kc.2) ∧ pop kc.2 = None)
                ∨ ((kc.1 ∉ K) ∧ rule kc.2 = None ∧ is_Some (pop kc.2)))
         (collect_pop_candidates self pop_rows cs).
Proof.
  unfold collect_pop_candidates.
  induction pop_rows as [|[[iid score] src] pop_rows IH]; intros cs Hrows Hall; simpl.
  - done.
  - apply Forall_cons in Hrows as [Hiid Hrows]. simpl in Hiid.
    case_bool_decide as Hin; [by apply IH|].
    apply IH; [done|]. apply od_set_Forall; [done|].
    right. simpl. split; [done|]. split; [|eauto].
    unfold od_get_or. destruct (od_get cs iid) as [c|] eqn:E; simpl; [|done].
    apply od_get_Some_elem in E. rewrite Forall_forall in Hall.
    destruct (Hall _ E) as [(HK & _)|(_ & Hr & _)]; [done|done].
Qed.

Lemma pop_scores_omap (cs : odict components) :
  pop_scores cs
  = omap (λ '(i, s), (λ w, (i, w)) <$> (inject_Z <$> pop s)) cs.
Proof.
  unfold pop_scores. induction cs as [|[k c] cs IH]; [done|].
  cbn. rewrite IH. by destruct (pop c).
Qed.

(** ** Warm-start scoring *)

Lemma warm_scoring_closed_form self (cs : odict components) top_n :
  NoDup cs.*1 →
  ∃ rn pn alpha (gr gp : Q → Q),
    minmax_dict (rule_scores cs) = Ok rn
    ∧ minmax_dict (pop_scores cs) = Ok pn
    ∧ blend_alpha (size (basket self)) = Ok alpha
    ∧ (∀ k c, (k, c) ∈ cs → od_get rn k = gr <$> rule c)
    ∧ (∀ k c, (k, c) ∈ cs → od_get pn k = gp <$> (inject_Z <$> pop c))
    ∧ warm_scoring self cs top_n
      = Ok (WarmRec <$> take top_n
              (sort_desc final_score
                 ((λ '(iid, comp), score_candidate self rn pn alpha iid comp)
                    <$> cs))).
Proof.
  intros Hnd.
  destruct (minmax_dict_closed_form (rule_scores cs)) as (lor & denr & _ & _ & Hrn).
  destruct (minmax_dict_closed_form (pop_scores cs)) as (lop & denp & _ & _ & Hpn).
  destruct (blend_alpha_closed_form (size (basket self))) as (alpha & Ha & _).
  exists ((λ kv, (kv.1, ((kv.2 - lor) / denr)%Q)) <$> rule_scores cs),
         ((λ kv, (kv.1, ((kv.2 - lop) / denp)%Q)) <$> pop_scores cs),
         alpha, (λ v, ((v - lor) / denr)%Q), (λ v, ((v - lop) / denp)%Q).
  split; [exact Hrn|]. split; [exact Hpn|]. split; [exact Ha|].
  split; [|split].
  - intros k c Hin.
    rewrite (od_get_fmap_values (λ v, ((v - lor) / denr)%Q)). f_equal.
    unfold rule_scores. by apply od_get_omap.
  - intros k c Hin.
    rewrite (od_get_fmap_values (λ v, ((v - lop) / denp)%Q)). f_equal.
    rewrite pop_scores_omap.
    by apply (od_get_omap (λ s, inject_Z <$> pop s)).
  - unfold warm_scoring. rewrite Hrn, Hpn, Ha. done.
Qed.

Lemma score_candidate_blended self rn pn alpha (gr gp : Q → Q)
    (cs : odict components) k c :
  NoDup cs.*1 → (k, c) ∈ cs →
  od_get rn k = gr <$> rule c →
  od_get pn k = gp <$> (inject_Z <$> pop c) →
  blended alpha rn pn cs (score_candidate self rn pn alpha k c).
Proof.
  intros Hnd Hin Hr Hp. unfold blended. simpl.
  exists c, (od_get_or rn k 0%Q), (od_get_or pn k 0%Q).
  split; [by apply od_get_elem|].
  unfold od_get_or, norm_or_zero. rewrite Hr, Hp.
  by destruct (rule c), (pop c).
Qed.

(** ** [recommend] *)

Lemma recommend_warm db self top_n rules_dict pop_rows :
  basket self ≠ ∅ →
  _fetch_rules db self (elements (basket self)) (top_n * 8) = Ok rules_dict →
  _fetch_popularity db self top_n top_n
    (exclude_more self (rule_candidates self rules_dict)) = Ok pop_rows →
  recommend db self top_n
  = warm_scoring self
      (collect_pop_candidates self pop_rows (rule_candidates self rules_dict)) top_n.
Proof.
  intros Hne Hr Hp. unfold recommend.
  rewrite decide_False by done. rewrite Hr. simpl. by rewrite Hp.
Qed.

Lemma recommend_warm_inv db self top_n recs :
  basket self ≠ ∅ → recommend db self top_n = Ok recs →
  ∃ rules_dict pop_rows,
    _fetch_rules db self (elements (basket self)) (top_n * 8) = Ok rules_dict
    ∧ _fetch_popularity db self top_n top_n
        (exclude_more self (rule_candidates self rules_dict)) = Ok pop_rows.
Proof.
  intros Hne. unfold recommend. rewrite decide_False by done.
  destruct (_fetch_rules db self (elements (basket self)) (top_n * 8))
    as [rules_dict|] eqn:Hr; simpl; [|discriminate].
  destruct (_fetch_popularity db self top_n top_n
              (exclude_more self (rule_candidates self rules_dict)))
    as [pop_rows|] eqn:Hp; simpl; [|discriminate].
  eauto.
Qed.

Lemma warm_candidates_inv self (rules_dict : odict Q)
    (pop_rows : list (Z * Z * source)) :
  NoDup (collect_pop_candidates self pop_rows (rule_candidates self rules_dict)).*1
  ∧ Forall (λ kc, kc.1 ∉ basket self)
      (collect_pop_candidates self pop_rows (rule_candidates self rules_dict)).
Proof.
  destruct (collect_rule_candidates_inv self (sort_desc snd rules_dict))
    as [Hnd Hall].
  apply collect_pop_candidates_inv; [done|].
  eapply Forall_impl; [exact Hall|]. simpl. tauto.
Qed.

Lemma warm_scoring_ids self (cs : odict components) top_n recs :
  NoDup cs.*1 → warm_scoring self cs top_n = Ok recs →
  Forall (λ r, item_id r ∈ cs.*1) recs.
Proof.
  intros Hnd Hw.
  destruct (warm_scoring_closed_form self cs top_n Hnd)
    as (rn & pn & alpha & gr & gp & _ & _ & _ & _ & _ & Hws).
  rewrite Hws in Hw. injection Hw as <-.
  apply Forall_fmap, Forall_take. rewrite sort_desc_perm.
  apply Forall_fmap, Forall_forall. intros [k c] Hin. simpl.
  apply list_elem_of_fmap. by exists (k, c).
Qed.

(** C5. In warm-start mode, once both fetches have returned, [recommend]
    returns the first [top_n] records of a ranking [full] that holds one
    record per candidate, is sorted by descending final score, and in which
    every record has final score [alpha * rule_norm + (1 - alpha) * pop_norm]
    (each norm being the epsilon min-max value of the candidate, or 0.0 when
    the candidate lacks that component) and source tag rules exactly when
    the candidate has a rule component, popularity otherwise. *)
Theorem warm_start_blend_sorted_truncated db self top_n rules_dict pop_rows :
  basket self ≠ ∅ →
  _fetch_rules db self (elements (basket self)) (top_n * 8) = Ok rules_dict →
  _fetch_popularity db self top_n top_n
    (exclude_more self (rule_candidates self rules_dict)) = Ok pop_rows →
  let cands :=
    collect_pop_candidates self pop_rows (rule_candidates self rules_dict) in
  ∃ rn pn alpha full,
    minmax_dict (rule_scores cands) = Ok rn
    ∧ minmax_dict (pop_scores cands) = Ok pn
    ∧ blend_alpha (size (basket self)) = Ok alpha
    ∧ recommend db self top_n = Ok (WarmRec <$> take top_n full)
    ∧ warm_item_id <$> full ≡ₚ cands.*1
    ∧ StronglySorted (λ r1 r2, (final_score r2 <= final_score r1)%Q) full
    ∧ Forall (blended alpha rn pn cands) full.
Proof.
  intros Hne Hr Hp cands.
  destruct (warm_candidates_inv self rules_dict pop_rows) as [Hnd _].
  fold cands in Hnd.
  destruct (warm_scoring_closed_form self cands top_n Hnd)
    as (rn & pn & alpha & gr & gp & Hrn & Hpn & Ha & Hgr & Hgp & Hws).
  exists rn, pn, alpha,
    (sort_desc final_score
       ((λ '(iid, comp), score_candidate self rn pn alpha iid comp) <$> cands)).
  do 3 (split; [done|]). split; [|split; [|split]].
  - by rewrite (recommend_warm db self top_n rules_dict pop_rows).
  - rewrite sort_desc_perm, <- list_fmap_compose.
    erewrite list_fmap_ext; [reflexivity|]. by intros i [k c] _.
  - apply sort_desc_sorted.
  - rewrite sort_desc_perm. apply Forall_fmap, Forall_forall.
    intros [k c] Hin. simpl.
    eapply score_candidate_blended; eauto.
Qed.

(** C6. Whatever the basket, [top_n] and the answers of the collaborators,
    no item id of the basket is the id of a record that [recommend] returns,
    in cold start as in warm start. *)
Theorem recommend_excludes_basket db self top_n recs :
  recommend db self top_n = Ok recs →
  Forall (λ r, item_id r ∉ basket self) recs.
Proof.
  intros Hrec. destruct (decide (basket self = ∅)) as [Hempty|Hne].
  - rewrite Hempty. apply Forall_forall. intros r _. apply not_elem_of_empty.
  - destruct (recommend_warm_inv db self top_n recs Hne Hrec)
      as (rules_dict & pop_rows & Hr & Hp).
    rewrite (recommend_warm db self top_n rules_dict pop_rows) in Hrec by done.
    destruct (warm_candidates_inv self rules_dict pop_rows) as [Hnd Hbk].
    apply (warm_scoring_ids _ _ _ _ Hnd) in Hrec.
    rewrite Forall_forall in Hrec. rewrite Forall_forall in Hbk.
    apply Forall_forall. intros r Hin.
    apply Hrec in Hin. apply list_elem_of_fmap in Hin as ([k c] & -> & Hkc).
    by apply (Hbk (k, c)).
Qed.

(** C9. In warm-start mode, if no row of the popularity fetch carries an id
    of its exclusion list, every candidate carries exactly one signal
    component (a rule strength or a popularity count, never both), every
    returned record has exactly one of [rule_norm] and [pop_norm] non-null,
    and its final score is [alpha * rule_norm] or [(1 - alpha) * pop_norm]
    accordingly. *)
Theorem warm_candidates_carry_one_signal db self top_n rules_dict pop_rows :
  basket self ≠ ∅ →
  _fetch_rules db self (elements (basket self)) (top_n * 8) = Ok rules_dict →
  _fetch_popularity db self top_n top_n
    (exclude_more self (rule_candidates self rules_dict)) = Ok pop_rows →
  Forall (λ row, row.1.1 ∉ exclude_more self (rule_candidates self rules_dict))
         pop_rows →
  let cands :=
    collect_pop_candidates self pop_rows (rule_candidates self rules_dict) in
  Forall (λ kc, (is_Some (rule kc.2) ∧ pop kc.2 = None)
                ∨ (rule kc.2 = None ∧ is_Some (pop kc.2))) cands
  ∧ ∃ alpha recs,
      blend_alpha (size (basket self)) = Ok alpha
      ∧ recommend db self top_n = Ok recs
      ∧ Forall (single_signal alpha) recs.
Proof.
  intros Hne Hr Hp Hexcl cands.
  assert (Hsplit : Forall (λ kc, (is_Some (rule kc.2) ∧ pop kc.2 = None)
                                 ∨ (rule kc.2 = None ∧ is_Some (pop kc.2))) cands).
  { eapply Forall_impl;
      [apply (collect_pop_candidates_split self
                (rule_candidates self rules_dict).*1 pop_rows)|].
    - eapply Forall_impl; [exact Hexcl|]. simpl. intros row Hrow Hin.
      apply Hrow. unfold exclude_more.
      rewrite elem_of_elements, elem_of_union, elem_of_list_to_set. by right.
    - destruct (collect_rule_candidates_inv self (sort_desc snd rules_dict))
        as [_ Hall].
      apply Forall_forall. intros kc Hin. left.
      rewrite Forall_forall in Hall. destruct (Hall kc Hin) as (_ & ? & ?).
      split; [|done]. apply list_elem_of_fmap. by exists kc.
    - simpl. tauto. }
  split; [exact Hsplit|].
  destruct (warm_candidates_inv self rules_dict pop_rows) as [Hnd _].
  fold cands in Hnd.
  destruct (warm_scoring_closed_form self cands top_n Hnd)
    as (rn & pn & alpha & gr & gp & _ & _ & Ha & Hgr & Hgp & Hws).
  exists alpha. eexists. split; [exact Ha|]. split.
  { rewrite (recommend_warm db self top_n rules_dict pop_rows) by done.
    exact Hws. }
  apply Forall_fmap, Forall_take. rewrite sort_desc_perm.
  apply Forall_fmap, Forall_forall. intros [k c] Hin.
  rewrite Forall_forall in Hsplit.
  specialize (Hgr k c Hin). specialize (Hgp k c Hin).
  unfold single_signal. simpl.
  exists (score_candidate self rn pn alpha k c).
  destruct (Hsplit _ Hin) as [[[v Hv] Hnone]|[Hnone [v Hv]]]; simpl in *.
  - exists (od_get_or rn k 0%Q). split; [done|]. left.
    unfold score_candidate. simpl. rewrite Hv, Hnone.
    do 2 (split; [done|]).
    unfold od_get_or at 2. rewrite Hgp, Hnone. simpl. ring.
  - exists (od_get_or pn k 0%Q). split; [done|]. right.
    unfold score_candidate. simpl. rewrite Hv, Hnone.
    do 2 (split; [done|]).
    unfold od_get_or at 1. rewrite Hgr, Hnone. simpl. ring.
Qed.

(** ** Failing collaborators *)

Lemma fetch_rules_nonempty db self (bk : gset Z) fetch_limit :
  bk ≠ ∅ →
  _fetch_rules db self (elements bk) fetch_limit
  = rows ← query_rules db (elements bk) fetch_limit;
    collect_recs (list_to_set (elements bk)) rows [].
Proof.
  intros Hne. unfold _fetch_rules.
  destruct (elements bk) eqn:E; [|done].
  apply elements_empty_inv in E. apply leibniz_equiv in E. done.
Qed.

(** An error of the first failing query is the outcome of [recommend]. *)
Lemma recommend_propagates db self top_n e :
  first_failing_query db self top_n e → recommend db self top_n = Raise e.
Proof.
  intros [Hb Hq|rows Hb Hq1 Hq2|Hb Hq|rules_dict Hb Hr Hq
          |rules_dict rows Hb Hr Hq1 Hq2];
    unfold recommend.
  - rewrite decide_True by done. unfold _fetch_popularity. by rewrite Hq.
  - rewrite decide_True by done. unfold _fetch_popularity.
    rewrite Hq1. simpl. by rewrite Hq2.
  - rewrite decide_False by done.
    rewrite fetch_rules_nonempty by done. by rewrite Hq.
  - rewrite decide_False by done. rewrite Hr. simpl.
    unfold _fetch_popularity. by rewrite Hq.
  - rewrite decide_False by done. rewrite Hr. simpl.
    unfold _fetch_popularity. rewrite Hq1. simpl. by rewrite Hq2.
Qed.

(** C8, as the code has it.  When a collaborator query fails during a
    call, the call raises that error.  After a failed [recommend] the engine
    is unchanged.  After a failed [add_item] or [remove_item] the region and
    the catalogue are unchanged and the basket is the basket with the item
    added, respectively discarded: the update made before the fetch is kept. *)
Theorem failed_call_propagates_and_keeps_update db self item top_n e :
  (first_failing_query db self top_n e →
     run_recommend db self top_n = (self, Raise e))
  ∧ (first_failing_query db (with_basket self ({[item]} ∪ basket self)) top_n e →
       add_item db self item top_n
       = (with_basket self ({[item]} ∪ basket self), Raise e))
  ∧ (first_failing_query db (with_basket self (basket self ∖ {[item]})) top_n e →
       remove_item db self item top_n
       = (with_basket self (basket self ∖ {[item]}), Raise e)).
Proof.
  split; [|split]; intros Hfail; apply recommend_propagates in Hfail.
  - unfold run_recommend. by rewrite Hfail.
  - unfold add_item. fold (with_basket self ({[item]} ∪ basket self)).
    by rewrite Hfail.
  - unfold remove_item. fold (with_basket self (basket self ∖ {[item]})).
    by rewrite Hfail.
Qed.

(** ** Concrete runs *)

Example interleave_scenario :
  interleave_pairs sample_region sample_global sample_norm (2 # 10) 4
  = [(1, 100, Region); (3, 200, Global); (4, 10, Global)]%Z.
Proof. vm_compute. reflexivity. Qed.

(** C8, as stated, fails.  With an unreachable storage, [add_item] on a
    fresh engine raises the data-unavailable error and leaves the engine
    with the item in its basket, which was empty before the call. *)
Lemma add_item_failure_changes_basket :
  (add_item unreachable_db fresh_engine 5 15).2 = Raise DataUnavailable
  ∧ basket (add_item unreachable_db fresh_engine 5 15).1 ≠ basket fresh_engine.
Proof.
  split; [by vm_compute|].
  simpl. intros H.
  assert (Hin : 5%Z ∈ ({[5%Z]} ∪ ∅ : gset Z)) by (apply elem_of_union; left; by apply elem_of_singleton).
  rewrite H in Hin. by apply not_elem_of_empty in Hin.
Qed.

Lemma sample_basket_nonempty : basket sample_engine ≠ ∅.
Proof. exact (non_empty_singleton_L (C := gset Z) 10%Z). Defined.

Lemma sample_fetch_rules :
  _fetch_rules sample_db sample_engine (elements (basket sample_engine)) (15 * 8)
  = Ok sample_rules.
Proof. vm_compute. reflexivity. Defined.

Lemma sample_fetch_popularity :
  _fetch_popularity sample_db sample_engine 15 15
    (exclude_more sample_engine (rule_candidates sample_engine sample_rules))
  = Ok sample_pop_rows.
Proof. vm_compute. reflexivity. Defined.

Lemma sample_rows_honor_exclusion :
  Forall (λ row, row.1.1 ∉
            exclude_more sample_engine (rule_candidates sample_engine sample_rules))
         sample_pop_rows.
Proof. apply (bool_decide_unpack _). vm_compute. exact I. Defined.

Lemma adaptive_alpha_monotone_witness :
  (1 ≤ 3)%Z
  ∧ ∃ x y, _adaptive_alpha 1 3 = Ok x ∧ _adaptive_alpha 3 3 = Ok y ∧ (x <= y)%Q.
Proof.
  split; [lia|].
  apply (proj1 adaptive_alpha_monotone_and_values 1%Z 3%Z). lia.
Defined.

Lemma interleave_pairs_terminates_witness :
  fuel_bound sample_region sample_global ≤ 20
  ∧ loop_cond sample_region sample_global 4 init_state = true
  ∧ length sample_global ≤ 20
  ∧ (∃ s, loop sample_region sample_global sample_norm (2 # 10) 4 20 init_state
          = Some s
          ∧ out s = interleave_pairs sample_region sample_global sample_norm
                      (2 # 10) 4)
  ∧ iteration_progress sample_region sample_global sample_norm (2 # 10) 4 20
      init_state.
Proof.
  assert (H1 : fuel_bound sample_region sample_global ≤ 20) by (vm_compute; lia).
  assert (H2 : loop_cond sample_region sample_global 4 init_state = true)
    by reflexivity.
  assert (H3 : length sample_global ≤ 20) by (simpl; lia).
  destruct (interleave_pairs_terminates sample_region sample_global sample_norm
              (2 # 10) 4) as [Hrun Hstep].
  split; [exact H1|]. split; [exact H2|]. split; [exact H3|].
  split; [exact (Hrun 20 H1)|exact (Hstep 20 init_state H2 H3)].
Defined.

Lemma warm_start_blend_witness :
  basket sample_engine ≠ ∅
  ∧ ∃ full,
      recommend sample_db sample_engine 15 = Ok (WarmRec <$> take 15 full)
      ∧ StronglySorted (λ r1 r2, (final_score r2 <= final_score r1)%Q) full.
Proof.
  split; [exact sample_basket_nonempty|].
  destruct (warm_start_blend_sorted_truncated sample_db sample_engine 15
              sample_rules sample_pop_rows sample_basket_nonempty
              sample_fetch_rules sample_fetch_popularity)
    as (rn & pn & alpha & full & _ & _ & _ & Hrec & _ & Hsorted & _).
  exists full. split; [exact Hrec|exact Hsorted].
Defined.

Lemma recommend_excludes_basket_witness :
  ∃ recs, recommend sample_db sample_engine 15 = Ok recs
          ∧ Forall (λ r, item_id r ∉ basket sample_engine) recs.
Proof.
  eexists. split; [vm_compute; reflexivity|].
  apply (recommend_excludes_basket sample_db sample_engine 15).
  vm_compute. reflexivity.
Defined.

Lemma warm_candidates_carry_one_signal_witness :
  basket sample_engine ≠ ∅
  ∧ ∃ alpha recs,
      blend_alpha (size (basket sample_engine)) = Ok alpha
      ∧ recommend sample_db sample_engine 15 = Ok recs
      ∧ Forall (single_signal alpha) recs.
Proof.
  split; [exact sample_basket_nonempty|].
  exact (proj2 (warm_candidates_carry_one_signal sample_db sample_engine 15
                  sample_rules sample_pop_rows sample_basket_nonempty
                  sample_fetch_rules sample_fetch_popularity
                  sample_rows_honor_exclusion)).
Defined.

Lemma failed_call_witness :
  first_failing_query unreachable_db fresh_engine 15 DataUnavailable
  ∧ run_recommend unreachable_db fresh_engine 15
    = (fresh_engine, Raise DataUnavailable)
  ∧ add_item unreachable_db fresh_engine 5 15
    = (with_basket fresh_engine ({[5%Z]} ∪ basket fresh_engine),
       Raise DataUnavailable).
Proof.
  assert (H1 : first_failing_query unreachable_db fresh_engine 15 DataUnavailable)
    by (apply cold_region_fails; reflexivity).
  assert (H2 : first_failing_query unreachable_db
                 (with_basket fresh_engine ({[5%Z]} ∪ basket fresh_engine)) 15
                 DataUnavailable).
  { apply warm_rules_fail; [|reflexivity]. simpl.
    intros H. apply (not_elem_of_empty (C := gset Z) 5%Z). rewrite <- H.
    apply elem_of_union. left. by apply elem_of_singleton. }
  destruct (failed_call_propagates_and_keeps_update unreachable_db fresh_engine
              5%Z 15 DataUnavailable) as (Hrec & Hadd & _).
  split; [exact H1|]. split; [exact (Hrec H1)|exact (Hadd H2)].
Defined.

(** * Further properties *)

(** ** The interleaver: provenance, coverage, special cases *)

Section InterleaveMore.
Context {Score : Type}.
Variables (a b : list (Z * Score)).
Variable region_norm : gmap Z Q.
Variable threshold : Q.
Variable top_n : nat.

Local Abbreviation state := (@loop_state Score).
Local Abbreviation tinv := (trace_inv a b region_norm threshold).

Lemma backfill_preserves (P : state → Prop) :
  (∀ s iid sc t, P s → length (out s) < top_n → b !! ib s = Some (iid, sc) →
     P (emit_global s iid sc t)) →
  ∀ fuel s s', P s → backfill b top_n fuel s = Some s' → P s'.
Proof.
  intros Hg. induction fuel as [|fuel IH]; intros s s' HP; simpl.
  - destruct (backfill_cond b top_n s); [discriminate|]. congruence.
  - destruct (backfill_cond b top_n s) eqn:E; [|congruence].
    apply backfill_cond_true in E as [Hlt _].
    destruct (b !! ib s) as [[iid score]|] eqn:Hb; [|discriminate].
    apply IH. by apply Hg.
Qed.

(** A property kept by the three kinds of step is kept by the whole run. *)
Lemma loop_preserves (P : state → Prop) :
  (∀ s iid sc, P s → length (out s) < top_n → a !! ia s = Some (iid, sc) →
     P (take_region region_norm threshold s iid sc)) →
  (∀ s iid sc t, P s → length (out s) < top_n → b !! ib s = Some (iid, sc) →
     P (emit_global s iid sc t)) →
  (∀ s t, P s → P (set_turn s t)) →
  ∀ fuel s s', P s → loop a b region_norm threshold top_n fuel s = Some s' → P s'.
Proof.
  intros Hr Hg Ht. induction fuel as [|fuel IH]; intros s s' HP; simpl.
  - destruct (loop_cond a b top_n s); [discriminate|]. congruence.
  - destruct (loop_cond a b top_n s) eqn:E; [|congruence].
    apply loop_cond_true in E as [Hlt _].
    assert (Hex : match exhausted_branch a b region_norm threshold top_n fuel s with
                  | Some (Continue s1) => loop a b region_norm threshold top_n fuel s1
                  | Some (Break s1) => Some s1
                  | None => None
                  end = Some s' → P s').
    { unfold exhausted_branch. destruct (_ || _).
      - destruct (backfill b top_n fuel s) as [s1|] eqn:Eb; simpl; [|discriminate].
        intros [= <-]. eapply backfill_preserves; eauto.
      - apply IH. by apply Ht. }
    unfold body.
    destruct (turn s), (a !! ia s) as [[iid sc]|] eqn:Ha,
             (b !! ib s) as [[iid' sc']|] eqn:Hb; try exact Hex;
      apply IH; eauto.
Qed.

Lemma entries_of_snoc src (l : list (Z * Score * source)) e :
  entries_of src (l ++ [e])
  = entries_of src l ++ (if decide (e.2 = src) then [e.1] else []).
Proof.
  unfold entries_of. rewrite omap_app. simpl.
  by destruct (decide (e.2 = src)).
Qed.

Lemma init_trace : tinv (@init_state Score).
Proof.
  split; simpl.
  - constructor.
  - constructor.
  - constructor.
  - intros x Hx. by apply elem_of_nil in Hx.
  - intros x Hx. by apply elem_of_nil in Hx.
Qed.

Lemma take_region_trace (s : state) iid sc :
  tinv s → a !! ia s = Some (iid, sc) →
  tinv (take_region region_norm threshold s iid sc).
Proof.
  intros [Htag Hr Hg Hca Hcb] Ha. unfold take_region.
  destruct (negb (bool_decide (iid ∈ seen s))
            && Qle_bool threshold (dict_get_or region_norm iid 0%Q)) eqn:E;
    split; simpl; rewrite ?(take_S_r _ _ _ Ha).
  - apply Forall_app. split; [done|]. constructor; [by left|constructor].
  - rewrite entries_of_snoc. simpl. by apply sublist_app.
  - rewrite entries_of_snoc. simpl. by rewrite app_nil_r.
  - intros x Hx Hpass. apply elem_of_union.
    apply elem_of_app in Hx as [Hx|Hx]; [right; auto|left].
    apply list_elem_of_singleton in Hx. subst x. by apply elem_of_singleton.
  - intros x Hx. apply elem_of_union. right. auto.
  - done.
  - by apply sublist_inserts_r.
  - done.
  - intros x Hx Hpass.
    apply elem_of_app in Hx as [Hx|Hx]; [auto|].
    apply list_elem_of_singleton in Hx. subst x. simpl in *.
    apply andb_false_iff in E as [E|E].
    + apply negb_false_iff, bool_decide_eq_true in E. done.
    + apply Qle_bool_iff in Hpass. congruence.
  - done.
Qed.

Lemma emit_global_trace (s : state) iid sc t :
  tinv s → b !! ib s = Some (iid, sc) → tinv (emit_global s iid sc t).
Proof.
  intros [Htag Hr Hg Hca Hcb] Hb. unfold emit_global.
  destruct (negb (bool_decide (iid ∈ seen s))) eqn:E;
    split; simpl; rewrite ?(take_S_r _ _ _ Hb).
  - apply Forall_app. split; [done|]. constructor; [by right|constructor].
  - rewrite entries_of_snoc. simpl. by rewrite app_nil_r.
  - rewrite entries_of_snoc. simpl. by apply sublist_app.
  - intros x Hx Hpass. apply elem_of_union. right. auto.
  - intros x Hx. apply elem_of_union.
    apply elem_of_app in Hx as [Hx|Hx]; [right; auto|left].
    apply list_elem_of_singleton in Hx. subst x. by apply elem_of_singleton.
  - done.
  - done.
  - by apply sublist_inserts_r.
  - done.
  - intros x Hx.
    apply elem_of_app in Hx as [Hx|Hx]; [auto|].
    apply list_elem_of_singleton in Hx. subst x. simpl.
    by apply negb_false_iff, bool_decide_eq_true in E.
Qed.

Lemma loop_trace fuel (s s' : state) :
  tinv s → loop a b region_norm threshold top_n fuel s = Some s' → tinv s'.
Proof.
  apply (loop_preserves tinv).
  - intros s0 iid sc H _ Ha. by apply take_region_trace.
  - intros s0 iid sc t H _ Hb. by apply emit_global_trace.
  - intros s0 t [? ? ? ? ?]. by split.
Qed.

Lemma backfill_exit fuel : ∀ s s' : state,
  backfill b top_n fuel s = Some s' →
  backfill_cond b top_n s' = false ∧ ia s' = ia s.
Proof.
  induction fuel as [|fuel IH]; intros s s'; simpl.
  - destruct (backfill_cond b top_n s) eqn:E; [discriminate|].
    by intros [= <-].
  - destruct (backfill_cond b top_n s) eqn:E; [|by intros [= <-]].
    destruct (b !! ib s) as [[iid score]|]; [|discriminate].
    intros H. apply IH in H as [H1 H2]. split; [done|].
    rewrite H2. by destruct (emit_global_fields s iid score (turn s)) as (-> & _).
Qed.

Lemma loop_exit fuel : ∀ s s' : state,
  loop a b region_norm threshold top_n fuel s = Some s' →
  exit_state a b region_norm threshold top_n s'.
Proof.
  induction fuel as [|fuel IH]; intros s s'; simpl.
  - destruct (loop_cond a b top_n s) eqn:E; [discriminate|].
    intros [= <-]. unfold exit_state. unfold loop_cond in E.
    apply andb_false_iff in E as [E|E].
    + left. by apply Nat.ltb_ge in E.
    + apply orb_false_iff in E as [E1 E2]. apply Nat.ltb_ge in E1, E2. auto.
  - destruct (loop_cond a b top_n s) eqn:E.
    + assert (Hex : match exhausted_branch a b region_norm threshold top_n fuel s with
                    | Some (Continue s1) =>
                        loop a b region_norm threshold top_n fuel s1
                    | Some (Break s1) => Some s1
                    | None => None
                    end = Some s' → exit_state a b region_norm threshold top_n s').
      { unfold exhausted_branch.
        destruct (length a <=? ia s) eqn:Ela; simpl.
        - destruct (backfill b top_n fuel s) as [s1|] eqn:Eb; simpl; [|discriminate].
          intros [= <-]. apply backfill_exit in Eb as [Hc Hia].
          unfold exit_state. unfold backfill_cond in Hc.
          apply Nat.leb_le in Ela.
          apply andb_false_iff in Hc as [Hc|Hc]; apply Nat.ltb_ge in Hc.
          + by left.
          + right. split; [done|]. left. lia.
        - destruct (rest_below a region_norm threshold s) eqn:Erb.
          + destruct (backfill b top_n fuel s) as [s1|] eqn:Eb; simpl;
              [|discriminate].
            intros [= <-]. apply backfill_exit in Eb as [Hc Hia].
            unfold exit_state. unfold backfill_cond in Hc.
            apply andb_false_iff in Hc as [Hc|Hc]; apply Nat.ltb_ge in Hc.
            * by left.
            * right. split; [done|]. right.
              unfold rest_below in *. by rewrite Hia.
          + apply IH. }
      unfold body.
      destruct (turn s), (a !! ia s) as [[iid sc]|] eqn:Ha,
               (b !! ib s) as [[iid' sc']|] eqn:Hb; try exact Hex; apply IH.
    + intros [= <-]. unfold exit_state. unfold loop_cond in E.
      apply andb_false_iff in E as [E|E].
      * left. by apply Nat.ltb_ge in E.
      * apply orb_false_iff in E as [E1 E2]. apply Nat.ltb_ge in E1, E2. auto.
Qed.

(** The final state of [interleave_pairs] with everything known about it. *)
Lemma interleave_pairs_final :
  ∃ s, interleave_pairs a b region_norm threshold top_n = out s
       ∧ loop_inv region_norm threshold top_n s ∧ tinv s
       ∧ exit_state a b region_norm threshold top_n s.
Proof.
  destruct (interleave_pairs_run a b region_norm threshold top_n)
    as (s & Hs & Hout).
  exists s. split; [done|]. split; [|split].
  - eapply loop_preserves_inv; [apply init_inv|exact Hs].
  - eapply loop_trace; [apply init_trace|exact Hs].
  - eapply loop_exit; exact Hs.
Qed.

End InterleaveMore.

(** X1. Every entry of the output is tagged region or global; the region entries
    are entries of the region list in their original order, and the global
    entries are entries of the global list in their original order. *)
Theorem interleave_pairs_keeps_source_order {Score}
    (a b : list (Z * Score)) (region_norm : gmap Z Q) (threshold : Q) (top_n : nat) :
  let result := interleave_pairs a b region_norm threshold top_n in
  Forall (λ e, e.2 = Region ∨ e.2 = Global) result
  ∧ sublist (entries_of Region result) a
  ∧ sublist (entries_of Global result) b.
Proof.
  destruct (interleave_pairs_final a b region_norm threshold top_n)
    as (s & Hout & _ & [Htag Hr Hg _ _] & _).
  simpl. rewrite Hout. split; [done|]. split.
  - etrans; [exact Hr|]. apply sublist_take.
  - etrans; [exact Hg|]. apply sublist_take.
Qed.

(** X2. When the output has fewer than [top_n] entries nothing eligible was left
    out: the id of every global entry is in the output, and so is the id of
    every region entry whose normalised score reaches the threshold. *)
Theorem interleave_pairs_short_output_is_complete {Score}
    (a b : list (Z * Score)) (region_norm : gmap Z Q) (threshold : Q) (top_n : nat) :
  let result := interleave_pairs a b region_norm threshold top_n in
  length result < top_n →
  Forall (λ x, x.1 ∈ result.*1.*1) b
  ∧ Forall (λ x, x.1 ∈ result.*1.*1)
           (filter (λ x, (threshold <= dict_get_or region_norm x.1 0)%Q) a).
Proof.
  destruct (interleave_pairs_final a b region_norm threshold top_n)
    as (s & Hout & [_ _ Hseen _] & [_ _ _ Hca Hcb] & Hexit).
  simpl. rewrite Hout. intros Hshort.
  destruct Hexit as [Hfull|[Hib Hia]]; [lia|].
  split; apply Forall_forall.
  - intros x Hx. apply Hseen, Hcb. by rewrite take_ge.
  - intros x Hx. apply list_elem_of_filter in Hx as [Hpass Hx].
    apply Hseen, Hca; [|done].
    destruct Hia as [Hia|Hbelow]; [by rewrite take_ge|].
    rewrite <- (take_drop (ia s) a) in Hx.
    apply elem_of_app in Hx as [Hx|Hx]; [done|].
    unfold rest_below in Hbelow. rewrite forallb_forall in Hbelow.
    apply list_elem_of_In, Hbelow, Qlt_bool_iff in Hx.
    exfalso. eapply Qlt_not_le; eauto.
Qed.

Lemma gated_first_occurrences_below {Score} (region_norm : gmap Z Q) threshold
    (l : list (Z * Score)) : ∀ seen,
  forallb (λ x, Qlt_bool (dict_get_or region_norm x.1 0%Q) threshold) l = true →
  gated_first_occurrences region_norm threshold seen l = [].
Proof.
  induction l as [|[iid score] l IH]; intros seen; simpl; [done|].
  intros H. apply andb_true_iff in H as [H1 H2].
  apply Qlt_bool_iff in H1.
  destruct (Qle_bool threshold (dict_get_or region_norm iid 0%Q)) eqn:E.
  - apply Qle_bool_iff in E. exfalso. eapply Qlt_not_le; eauto.
  - rewrite andb_false_r. by apply IH.
Qed.

Lemma backfill_empty_global {Score} top_n fuel (s : @loop_state Score) :
  backfill [] top_n fuel s = Some s.
Proof.
  assert (E : backfill_cond ([] : list (Z * Score)) top_n s = false).
  { unfold backfill_cond. simpl. apply andb_false_r. }
  destruct fuel; simpl; by rewrite E.
Qed.

Lemma loop_empty_global {Score} (a : list (Z * Score)) region_norm threshold
    top_n fuel : ∀ s s' : loop_state,
  loop a [] region_norm threshold top_n fuel s = Some s' →
  out s' = out s ++ take (top_n - length (out s))
             (tag_region <$> gated_first_occurrences region_norm threshold
                               (seen s) (drop (ia s) a)).
Proof.
  assert (Hstop : ∀ s : @loop_state Score,
            loop_cond a [] top_n s = false →
            out s = out s ++ take (top_n - length (out s))
              (tag_region <$> gated_first_occurrences region_norm threshold
                                (seen s) (drop (ia s) a))).
  { intros s E. unfold loop_cond in E. simpl in E. rewrite orb_false_r in E.
    apply andb_false_iff in E as [E|E]; apply Nat.ltb_ge in E.
    - replace (top_n - length (out s)) with 0 by lia.
      by rewrite take_0, app_nil_r.
    - rewrite drop_ge by done. simpl. by rewrite take_nil, app_nil_r. }
  assert (Hbelow : ∀ s : @loop_state Score,
            (length a <=? ia s) || rest_below a region_norm threshold s = true →
            out s = out s ++ take (top_n - length (out s))
              (tag_region <$> gated_first_occurrences region_norm threshold
                                (seen s) (drop (ia s) a))).
  { intros s E. apply orb_true_iff in E as [E|E].
    - apply Nat.leb_le in E. rewrite drop_ge by done. simpl.
      by rewrite take_nil, app_nil_r.
    - unfold rest_below in E.
      rewrite gated_first_occurrences_below by done. simpl.
      by rewrite take_nil, app_nil_r. }
  induction fuel as [|fuel IH]; intros s s'; simpl.
  - destruct (loop_cond a [] top_n s) eqn:E; [discriminate|].
    intros [= <-]. by apply Hstop.
  - destruct (loop_cond a [] top_n s) eqn:E; [|intros [= <-]; by apply Hstop].
    apply loop_cond_true in E as [Hlt _].
    assert (Hex : match exhausted_branch a [] region_norm threshold top_n fuel s with
                  | Some (Continue s1) =>
                      loop a [] region_norm threshold top_n fuel s1
                  | Some (Break s1) => Some s1
                  | None => None
                  end = Some s' →
                  out s' = out s ++ take (top_n - length (out s))
                    (tag_region <$> gated_first_occurrences region_norm threshold
                                      (seen s) (drop (ia s) a))).
    { unfold exhausted_branch.
      destruct ((length a <=? ia s) || rest_below a region_norm threshold s) eqn:Eb.
      - rewrite backfill_empty_global. simpl. intros [= <-]. by apply Hbelow.
      - intros H. apply IH in H. exact H. }
    unfold body. rewrite lookup_nil.
    destruct (a !! ia s) as [[iid sc]|] eqn:Ha.
    + destruct (turn s); [|exact Hex].
      intros H. apply IH in H. rewrite H. clear H.
      rewrite (drop_S _ _ _ Ha). simpl. unfold take_region.
      destruct (negb (bool_decide (iid ∈ seen s))
                && Qle_bool threshold (dict_get_or region_norm iid 0%Q)); simpl;
        [|done].
      rewrite length_app. simpl. rewrite <- app_assoc. simpl.
      replace (top_n - length (out s))
        with (S (top_n - (length (out s) + 1))) by lia.
      done.
    + destruct (turn s); exact Hex.
Qed.

(** X3. With an empty global list the output is the region list restricted to
    the entries that pass the threshold, first occurrence of each id only,
    in the original order, all tagged region, cut to [top_n] entries. *)
Theorem interleave_pairs_empty_global {Score}
    (a : list (Z * Score)) (region_norm : gmap Z Q) (threshold : Q) (top_n : nat) :
  interleave_pairs a [] region_norm threshold top_n
  = take top_n (tag_region <$> gated_first_occurrences region_norm threshold ∅ a).
Proof.
  destruct (interleave_pairs_run a [] region_norm threshold top_n)
    as (s & Hs & ->).
  apply loop_empty_global in Hs. rewrite Hs. simpl.
  by rewrite Nat.sub_0_r, drop_0.
Qed.

Lemma first_occurrences_id {Score} (l : list (Z * Score)) : ∀ seen : gset Z,
  Forall (λ k, k ∉ seen) l.*1 → NoDup l.*1 → first_occurrences seen l = l.
Proof.
  induction l as [|[iid score] l IH]; intros seen Hfresh Hnd; simpl; [done|].
  rewrite fmap_cons in Hfresh, Hnd.
  apply Forall_cons in Hfresh as [Hiid Hfresh].
  apply NoDup_cons in Hnd as [Hni Hnd]. simpl in *.
  rewrite bool_decide_eq_false_2 by done. f_equal.
  apply IH; [|done].
  rewrite Forall_forall in Hfresh. apply Forall_forall. intros k Hk.
  rewrite elem_of_union, elem_of_singleton. intros [->|Hs]; [done|].
  by apply (Hfresh k).
Qed.

Lemma alternate_nil_r {Score} (a : list (Z * Score)) :
  alternate a [] = tag_region <$> a.
Proof. by destruct a. Qed.

Lemma alternate_cons_region {Score} (x : Z * Score) (a b : list (Z * Score)) :
  alternate (x :: a) b = tag_region x :: alternate_from TurnGlobal a b.
Proof. by destruct b. Qed.

Lemma loop_alternate {Score} (a b : list (Z * Score)) region_norm threshold
    top_n fuel : ∀ s s' : loop_state,
  Forall (λ x, (threshold <= dict_get_or region_norm x.1 0)%Q) (drop (ia s) a) →
  NoDup ((drop (ia s) a).*1 ++ (drop (ib s) b).*1) →
  Forall (λ k, k ∉ seen s) ((drop (ia s) a).*1 ++ (drop (ib s) b).*1) →
  loop a b region_norm threshold top_n fuel s = Some s' →
  out s' = out s ++ take (top_n - length (out s))
             (alternate_from (turn s) (drop (ia s) a) (drop (ib s) b)).
Proof.
  assert (Hstop : ∀ s : @loop_state Score,
            loop_cond a b top_n s = false →
            out s = out s ++ take (top_n - length (out s))
              (alternate_from (turn s) (drop (ia s) a) (drop (ib s) b))).
  { intros s E. unfold loop_cond in E.
    apply andb_false_iff in E as [E|E].
    - apply Nat.ltb_ge in E. replace (top_n - length (out s)) with 0 by lia.
      by rewrite take_0, app_nil_r.
    - apply orb_false_iff in E as [E1 E2]. apply Nat.ltb_ge in E1, E2.
      rewrite !drop_ge by done.
      destruct (turn s); simpl; by rewrite take_nil, app_nil_r. }
  induction fuel as [|fuel IH]; intros s s' Hpass Hnd Hfresh; simpl.
  - destruct (loop_cond a b top_n s) eqn:E; [discriminate|].
    intros [= <-]. by apply Hstop.
  - destruct (loop_cond a b top_n s) eqn:E; [|intros [= <-]; by apply Hstop].
    apply loop_cond_true in E as [Hlt _].
    unfold body, exhausted_branch.
    destruct (a !! ia s) as [[iid sc]|] eqn:Ha.
    + (* the region list still has an entry *)
      rewrite (drop_S _ _ _ Ha) in Hpass, Hnd, Hfresh |- *.
      rewrite fmap_cons in Hnd, Hfresh. simpl in Hnd, Hfresh.
      apply Forall_cons in Hpass as [Hp Hpass]. simpl in Hp.
      apply NoDup_cons in Hnd as [Hni Hnd].
      apply Forall_cons in Hfresh as [Hf Hfresh].
      destruct (turn s) eqn:Ht.
      * (* region turn: the entry is emitted *)
        intros H. apply IH in H.
        -- rewrite H. unfold take_region.
           rewrite bool_decide_eq_false_2 by done.
           rewrite (proj2 (Qle_bool_iff _ _) Hp).
           cbn [negb andb out turn ia ib alternate_from].
           rewrite length_app, alternate_cons_region. simpl length.
           rewrite <- app_assoc.
           replace (top_n - length (out s))
             with (S (top_n - (length (out s) + 1))) by lia.
           done.
        -- by destruct (take_region_fields region_norm threshold s iid sc)
             as (-> & _ & _).
        -- by destruct (take_region_fields region_norm threshold s iid sc)
             as (-> & -> & _).
        -- destruct (take_region_fields region_norm threshold s iid sc)
             as (-> & -> & _).
           unfold take_region.
           rewrite bool_decide_eq_false_2 by done.
           rewrite (proj2 (Qle_bool_iff _ _) Hp). simpl.
           rewrite Forall_forall in Hfresh. apply Forall_forall. intros k Hk.
           rewrite elem_of_union, elem_of_singleton.
           intros [->|Hs]; [done|]. by apply (Hfresh k).
      * (* global turn *)
        destruct (b !! ib s) as [[iid' sc']|] eqn:Hb.
        -- rewrite (drop_S _ _ _ Hb) in Hnd, Hfresh, Hni |- *.
           rewrite fmap_cons in Hnd, Hfresh, Hni. simpl in Hnd, Hfresh, Hni.
           assert (Hf' : iid' ∉ seen s).
           { rewrite Forall_forall in Hfresh. apply Hfresh.
             apply elem_of_app. right. left. }
           intros H. apply IH in H.
           ++ rewrite H. unfold emit_global.
              rewrite bool_decide_eq_false_2 by done. simpl.
              rewrite (drop_S _ _ _ Ha).
              rewrite length_app. simpl. rewrite <- app_assoc. simpl.
              replace (top_n - length (out s))
                with (S (top_n - (length (out s) + 1))) by lia.
              done.
           ++ destruct (emit_global_fields s iid' sc' TurnRegion) as (-> & _ & _).
              rewrite (drop_S _ _ _ Ha). by constructor.
           ++ destruct (emit_global_fields s iid' sc' TurnRegion) as (-> & -> & _).
              rewrite (drop_S _ _ _ Ha), fmap_cons. simpl.
              apply NoDup_cons. split.
              ** rewrite elem_of_app. rewrite elem_of_app, elem_of_cons in Hni.
                 tauto.
              ** apply NoDup_app in Hnd as (Hn1 & Hn2 & Hn3).
                 apply NoDup_cons in Hn3 as [Hn3 Hn4].
                 apply NoDup_app. split; [done|]. split; [|done].
                 intros k Hk Hk'. apply (Hn2 k Hk). by right.
           ++ destruct (emit_global_fields s iid' sc' TurnRegion) as (-> & -> & _).
              rewrite (drop_S _ _ _ Ha), fmap_cons. simpl.
              unfold emit_global. rewrite bool_decide_eq_false_2 by done. simpl.
              apply NoDup_app in Hnd as (Hn1 & Hn2 & Hn3).
              apply NoDup_cons in Hn3 as [Hn3 Hn4].
              rewrite Forall_forall in Hfresh.
              apply Forall_forall. intros k Hk.
              rewrite elem_of_union, elem_of_singleton.
              intros [->|Hs].
              ** apply elem_of_cons in Hk as [->|Hk].
                 { apply Hni. apply elem_of_app. right. left. }
                 apply elem_of_app in Hk as [Hk|Hk]; [|done].
                 apply (Hn2 iid' Hk). left.
              ** apply elem_of_cons in Hk as [->|Hk]; [done|].
                 apply (Hfresh k); [|done].
                 rewrite elem_of_app, elem_of_cons.
                 apply elem_of_app in Hk as [Hk|Hk]; tauto.
        -- (* the global list is used up: the turn goes back *)
           apply lookup_ge_None in Hb.
           assert (Hla : (length a <=? ia s) = false).
           { apply Nat.leb_gt. by apply lookup_lt_Some in Ha. }
           assert (Hrb : rest_below a region_norm threshold s = false).
           { unfold rest_below. rewrite (drop_S _ _ _ Ha). simpl.
             rewrite (proj2 (Qlt_bool_false_iff _ _) Hp). done. }
           rewrite Hla, Hrb. simpl.
           intros H. apply IH in H.
           ++ rewrite H. simpl. rewrite (drop_S _ _ _ Ha).
              rewrite (drop_ge b) by done. done.
           ++ simpl. rewrite (drop_S _ _ _ Ha). by constructor.
           ++ simpl. rewrite (drop_S _ _ _ Ha), fmap_cons. simpl.
              by apply NoDup_cons.
           ++ simpl. rewrite (drop_S _ _ _ Ha), fmap_cons. simpl.
              by constructor.
    + (* the region list is used up *)
      apply lookup_ge_None in Ha. rewrite drop_ge in Hnd, Hfresh |- * by done.
      simpl in Hnd, Hfresh.
      replace (length a <=? ia s) with true by (symmetry; by apply Nat.leb_le).
      simpl.
      destruct (turn s) eqn:Ht.
      * destruct (backfill b top_n fuel s) as [s1|] eqn:Eb; simpl; [|discriminate].
        intros [= <-]. apply backfill_out in Eb. rewrite Eb.
        by rewrite first_occurrences_id.
      * destruct (b !! ib s) as [[iid' sc']|] eqn:Hb.
        -- rewrite (drop_S _ _ _ Hb) in Hnd, Hfresh |- *.
           rewrite fmap_cons in Hnd, Hfresh. simpl in Hnd, Hfresh.
           apply NoDup_cons in Hnd as [Hni Hnd].
           apply Forall_cons in Hfresh as [Hf Hfresh].
           intros H. apply IH in H.
           ++ rewrite H. unfold emit_global.
              rewrite bool_decide_eq_false_2 by done. simpl.
              rewrite !drop_ge by done.
              rewrite length_app. simpl. rewrite <- app_assoc. simpl.
              replace (top_n - length (out s))
                with (S (top_n - (length (out s) + 1))) by lia.
              done.
           ++ destruct (emit_global_fields s iid' sc' TurnRegion) as (-> & _ & _).
              by rewrite drop_ge.
           ++ destruct (emit_global_fields s iid' sc' TurnRegion) as (-> & -> & _).
              by rewrite drop_ge.
           ++ destruct (emit_global_fields s iid' sc' TurnRegion) as (-> & -> & _).
              rewrite drop_ge by done. simpl.
              unfold emit_global. rewrite bool_decide_eq_false_2 by done. simpl.
              rewrite Forall_forall in Hfresh. apply Forall_forall. intros k Hk.
              rewrite elem_of_union, elem_of_singleton.
              intros [->|Hs]; [done|]. by apply (Hfresh k).
        -- destruct (backfill b top_n fuel s) as [s1|] eqn:Eb; simpl;
             [|discriminate].
           intros [= <-]. apply backfill_out in Eb. rewrite Eb.
           apply lookup_ge_None in Hb. by rewrite !drop_ge.
Qed.

(** X4. When every region entry passes the threshold and no id occurs twice in
    the two lists taken together, the output is the strict alternation
    region, global, region, ... followed by the rest of the longer list, cut
    to [top_n] entries. *)
Theorem interleave_pairs_strict_alternation {Score}
    (a b : list (Z * Score)) (region_norm : gmap Z Q) (threshold : Q) (top_n : nat) :
  Forall (λ x, (threshold <= dict_get_or region_norm x.1 0)%Q) a →
  NoDup (a.*1 ++ b.*1) →
  interleave_pairs a b region_norm threshold top_n = take top_n (alternate a b).
Proof.
  intros Hpass Hnd.
  destruct (interleave_pairs_run a b region_norm threshold top_n)
    as (s & Hs & ->).
  apply loop_alternate in Hs; simpl; rewrite ?drop_0; try done.
  - rewrite Hs. simpl. by rewrite Nat.sub_0_r, !drop_0.
  - apply Forall_forall. intros k _. apply not_elem_of_empty.
Qed.

(** ** The normalisers: totality, range, ranking *)

Lemma py_min2_le_r x y : (py_min2 x y <= y)%Q.
Proof.
  unfold py_min2. destruct (Qlt_bool y x) eqn:E; [apply Qle_refl|].
  by apply Qlt_bool_false_iff in E.
Qed.

Lemma py_max2_ge_r x y : (y <= py_max2 x y)%Q.
Proof.
  unfold py_max2. destruct (Qlt_bool x y) eqn:E; [apply Qle_refl|].
  by apply Qlt_bool_false_iff in E.
Qed.

Lemma py_min_le_all l : ∀ x v, v ∈ x :: l → (py_min x l <= v)%Q.
Proof.
  induction l as [|y l IH]; intros x v Hv.
  - apply list_elem_of_singleton in Hv. subst. apply Qle_refl.
  - change (py_min x (y :: l)) with (py_min (py_min2 x y) l).
    apply elem_of_cons in Hv as [->|Hv].
    + eapply Qle_trans; [apply py_min_le_first|apply py_min2_le_l].
    + apply elem_of_cons in Hv as [->|Hv].
      * eapply Qle_trans; [apply py_min_le_first|apply py_min2_le_r].
      * apply IH. by right.
Qed.

Lemma py_max_ge_all l : ∀ x v, v ∈ x :: l → (v <= py_max x l)%Q.
Proof.
  induction l as [|y l IH]; intros x v Hv.
  - apply list_elem_of_singleton in Hv. subst. apply Qle_refl.
  - change (py_max x (y :: l)) with (py_max (py_max2 x y) l).
    apply elem_of_cons in Hv as [->|Hv].
    + eapply Qle_trans; [apply py_max2_ge_l|apply py_max_ge_first].
    + apply elem_of_cons in Hv as [->|Hv].
      * eapply Qle_trans; [apply py_max2_ge_r|apply py_max_ge_first].
      * apply IH. by right.
Qed.

Lemma foldl_Zmin_le_all (l : list Z) : ∀ x v, v ∈ x :: l → (foldl Z.min x l ≤ v)%Z.
Proof.
  induction l as [|y l IH]; intros x v Hv; simpl.
  - apply list_elem_of_singleton in Hv. lia.
  - apply elem_of_cons in Hv as [->|Hv].
    + pose proof (IH (Z.min x y) (Z.min x y) ltac:(left)). lia.
    + apply elem_of_cons in Hv as [->|Hv].
      * pose proof (IH (Z.min x y) (Z.min x y) ltac:(left)). lia.
      * apply IH. by right.
Qed.

Lemma foldl_Zmax_ge_all (l : list Z) : ∀ x v, v ∈ x :: l → (v ≤ foldl Z.max x l)%Z.
Proof.
  induction l as [|y l IH]; intros x v Hv; simpl.
  - apply list_elem_of_singleton in Hv. lia.
  - apply elem_of_cons in Hv as [->|Hv].
    + pose proof (IH (Z.max x y) (Z.max x y) ltac:(left)). lia.
    + apply elem_of_cons in Hv as [->|Hv].
      * pose proof (IH (Z.max x y) (Z.max x y) ltac:(left)). lia.
      * apply IH. by right.
Qed.

Lemma od_get_app {V} (d1 d2 : odict V) k :
  od_get (d1 ++ d2) k
  = match od_get d1 k with Some v => Some v | None => od_get d2 k end.
Proof.
  induction d1 as [|[k' v'] d1 IH]; simpl; [done|].
  destruct (decide (k = k')); [done|auto].
Qed.

(** A comprehension whose entries all evaluate builds the map in which the
    last entry of each key wins. *)
Lemma dict_comprehension_lookup {A V} (f : A → result (Z * V)) (g : A → Z * V)
    (l : list A) : ∀ acc : gmap Z V,
  Forall (λ x, f x = Ok (g x)) l →
  ∃ m, dict_comprehension f l acc = Ok m
       ∧ ∀ k, m !! k = match od_get (reverse (g <$> l)) k with
                        | Some v => Some v
                        | None => acc !! k
                        end.
Proof.
  induction l as [|x l IH]; intros acc Hall.
  - exists acc. by split.
  - apply Forall_cons in Hall as [Hx Hall].
    destruct (IH (<[(g x).1 := (g x).2]> acc) Hall) as (m & Hm & Hlook).
    exists m. split; [cbn [dict_comprehension]; by rewrite Hx|].
    intros k. rewrite Hlook.
    rewrite fmap_cons, reverse_cons, od_get_app.
    destruct (od_get (reverse (g <$> l)) k); [done|].
    destruct (g x) as [k' v']. simpl.
    destruct (decide (k = k')) as [->|Hne].
    + by rewrite lookup_insert_eq.
    + by rewrite lookup_insert_ne.
Qed.

Lemma od_get_is_Some {V} (d : odict V) k : is_Some (od_get d k) ↔ k ∈ d.*1.
Proof.
  split.
  - intros [v Hv]. apply od_get_Some_elem in Hv.
    apply list_elem_of_fmap. by exists (k, v).
  - intros Hk. destruct (od_get d k) eqn:E; [eauto|].
    exfalso. revert E Hk. clear. induction d as [|[k' v'] d IH]; simpl.
    + intros _ H. by apply elem_of_nil in H.
    + destruct (decide (k = k')); [done|].
      intros E H. apply elem_of_cons in H as [H|H]; [done|auto].
Qed.

(** The cold-start normaliser in closed form: it returns, and the value of
    an id is the image of the count in the last entry of that id under one
    non-decreasing map into [0, 1]. *)
Lemma minmax_norm_closed_form (vals : list (Z * Z)) :
  ∃ (m : gmap Z Q) (f : Z → Q),
    minmax_norm vals = Ok m
    ∧ (∀ k, m !! k = f <$> od_get (reverse vals) k)
    ∧ (∀ v, v ∈ vals.*2 → (0 <= f v <= 1)%Q)
    ∧ (∀ v w, v ∈ vals.*2 → w ∈ vals.*2 → (v ≤ w)%Z → (f v <= f w)%Q).
Proof.
  unfold minmax_norm. destruct (vals.*2) as [|v0 vs] eqn:E.
  - exists ∅, (λ _, 0%Q). split; [done|]. split; [|split].
    + intros k. destruct vals; [done|discriminate].
    + intros v Hv. by apply elem_of_nil in Hv.
    + intros v w Hv. by apply elem_of_nil in Hv.
  - set (mn := foldl Z.min v0 vs). set (mx := foldl Z.max v0 vs).
    assert (Hbounds : ∀ v, v ∈ v0 :: vs → (mn ≤ v ≤ mx)%Z).
    { intros v Hv. split;
        [by apply foldl_Zmin_le_all|by apply foldl_Zmax_ge_all]. }
    destruct (mx =? mn)%Z eqn:Eeq.
    + destruct (dict_comprehension_lookup
                  (λ '(iid, _), Ok (iid, 1%Q)) (λ x : Z * Z, (x.1, 1%Q)) vals ∅)
        as (m & Hm & Hlook).
      { apply Forall_forall. by intros [??] _. }
      exists m, (λ _, 1%Q). split; [done|]. split; [|split].
      * intros k. rewrite Hlook, lookup_empty.
        rewrite <- fmap_reverse.
        rewrite (od_get_fmap_values (λ _ : Z, 1%Q) (reverse vals) k).
        by destruct (od_get (reverse vals) k).
      * intros v _. split; discriminate.
      * intros. apply Qle_refl.
    + apply Z.eqb_neq in Eeq.
      assert (Hlt : (mn < mx)%Z).
      { pose proof (Hbounds v0 ltac:(left)). lia. }
      assert (Hden : (0 < inject_Z (mx - mn))%Q).
      { apply inject_Z_pos. lia. }
      destruct (dict_comprehension_lookup
                  (λ '(iid, v),
                     q ← py_div (inject_Z (v - mn)) (inject_Z (mx - mn));
                     Ok (iid, q))
                  (λ x : Z * Z, (x.1, (inject_Z (x.2 - mn) / inject_Z (mx - mn))%Q))
                  vals ∅) as (m & Hm & Hlook).
      { apply Forall_forall. intros [iid v] _.
        rewrite py_div_ok; [done|]. intros Hz. rewrite Hz in Hden.
        by apply Qlt_irrefl in Hden. }
      exists m, (λ v, (inject_Z (v - mn) / inject_Z (mx - mn))%Q).
      split; [done|]. split; [|split].
      * intros k. rewrite Hlook, lookup_empty.
        rewrite <- fmap_reverse.
        rewrite (od_get_fmap_values
                   (λ v, (inject_Z (v - mn) / inject_Z (mx - mn))%Q)
                   (reverse vals) k).
        by destruct (od_get (reverse vals) k).
      * intros v Hv. apply Hbounds in Hv. split.
        -- apply Qle_shift_div_l; [done|]. rewrite Qmult_0_l.
           rewrite <- (Zle_Qle 0). lia.
        -- apply Qle_shift_div_r; [done|]. rewrite Qmult_1_l.
           rewrite <- Zle_Qle. lia.
      * intros v w _ _ Hvw. unfold Qdiv.
        apply Qmult_le_compat_r.
        -- rewrite <- Zle_Qle. lia.
        -- apply Qlt_le_weak, Qinv_lt_0_compat, Hden.
Qed.

(** X5. The cold-start normaliser [minmax_norm] never raises; the map it returns
    has exactly the ids of its input as keys and all its values lie in
    [0, 1]. *)
Theorem minmax_norm_total_unit_range (vals : list (Z * Z)) :
  ∃ m, minmax_norm vals = Ok m
       ∧ dom m = list_to_set vals.*1
       ∧ map_Forall (λ _ q, (0 <= q <= 1)%Q) m.
Proof.
  destruct (minmax_norm_closed_form vals) as (m & f & Hm & Hlook & Hrange & _).
  exists m. split; [done|]. split.
  - apply set_eq. intros k.
    rewrite elem_of_dom, Hlook, fmap_is_Some, od_get_is_Some.
    rewrite fmap_reverse, elem_of_reverse. by rewrite elem_of_list_to_set.
  - intros k q Hq. rewrite Hlook in Hq.
    destruct (od_get (reverse vals) k) as [v|] eqn:E; [|done].
    injection Hq as <-. apply Hrange.
    apply od_get_Some_elem in E. rewrite elem_of_reverse in E.
    apply list_elem_of_fmap. by exists (k, v).
Qed.

(** X6. When every id occurs once, the cold-start normaliser keeps the ranking:
    an item with a count at most that of another item gets a normalised
    score at most that of the other. *)
Theorem minmax_norm_preserves_ranking (vals : list (Z * Z)) i v j w :
  NoDup vals.*1 → (i, v) ∈ vals → (j, w) ∈ vals → (v ≤ w)%Z →
  ∃ m p q, minmax_norm vals = Ok m
           ∧ m !! i = Some p ∧ m !! j = Some q ∧ (p <= q)%Q.
Proof.
  intros Hnd Hi Hj Hvw.
  destruct (minmax_norm_closed_form vals) as (m & f & Hm & Hlook & _ & Hmono).
  assert (Hget : ∀ k x, (k, x) ∈ vals → m !! k = Some (f x)).
  { intros k x Hk. rewrite Hlook, (od_get_elem (reverse vals) k x); [done| |].
    - by rewrite fmap_reverse, reverse_Permutation.
    - by apply elem_of_reverse. }
  exists m, (f v), (f w). split; [done|].
  split; [by apply Hget|]. split; [by apply Hget|].
  apply Hmono; [| |done]; apply list_elem_of_fmap; by eexists (_, _).
Qed.



Lemma py_min_in l : ∀ x, py_min x l ∈ x :: l.
Proof.
  induction l as [|y l IH]; intros x; [left|].
  change (py_min x (y :: l)) with (py_min (py_min2 x y) l).
  specialize (IH (py_min2 x y)).
  apply elem_of_cons in IH as [->|IH]; [|by right; right].
  unfold py_min2. destruct (Qlt_bool y x); [right; left|left].
Qed.

Lemma py_max_in l : ∀ x, py_max x l ∈ x :: l.
Proof.
  induction l as [|y l IH]; intros x; [left|].
  change (py_max x (y :: l)) with (py_max (py_max2 x y) l).
  specialize (IH (py_max2 x y)).
  apply elem_of_cons in IH as [->|IH]; [|by right; right].
  unfold py_max2. destruct (Qlt_bool x y); [right; left|left].
Qed.

Lemma mapM_result_inv {A B} (f : A → result B) (l : list A) : ∀ r,
  mapM f l = Ok r → Forall2 (λ x y, f x = Ok y) l r.
Proof.
  induction l as [|x l IH]; intros r; simpl.
  - intros [= <-]. constructor.
  - destruct (f x) as [y|] eqn:Ex; simpl; [|discriminate].
    destruct (mapM f l) as [r'|] eqn:El; simpl; [|discriminate].
    intros [= <-]. constructor; [done|]. by apply IH.
Qed.

Lemma step_unit_range (v : Q) :
  (0 <= (if Qlt_bool 0 v then 1 else 0) <= 1)%Q.
Proof. destruct (Qlt_bool 0 v); split; discriminate. Qed.

Lemma scaled_unit_range (mn mx v : Q) :
  (mn <= v)%Q → (v <= mx)%Q → Qeq_bool mx mn = false →
  ¬ (mx - mn == 0)%Q ∧ (0 <= (v - mn) / (mx - mn) <= 1)%Q.
Proof.
  intros Hlo Hhi Hne.
  assert (Hneq : ¬ (mx == mn)%Q).
  { intros H. apply Qeq_bool_iff in H. congruence. }
  assert (Hpos : (0 < mx - mn)%Q).
  { destruct (Qlt_le_dec mn mx) as [H|H]; [lra|].
    exfalso. apply Hneq. apply Qle_antisym; lra. }
  split; [lra|]. split.
  - apply Qle_shift_div_l; [done|]. lra.
  - apply Qle_shift_div_r; [done|]. lra.
Qed.

(** X8. [_normalize_rule_scores] never raises, keeps keys and order, and all
    the values it returns lie in [0, 1]. *)
Theorem normalize_rule_scores_total_unit_range (rules_dict : odict Q) :
  ∃ r, _normalize_rule_scores rules_dict = Ok r
       ∧ r.*1 = rules_dict.*1
       ∧ Forall (λ kv, (0 <= kv.2 <= 1)%Q) r.
Proof.
  unfold _normalize_rule_scores.
  destruct (rules_dict.*2) as [|v0 vs] eqn:E.
  - exists []. destruct rules_dict; [|discriminate]. by repeat split.
  - destruct (Qeq_bool (py_max v0 vs) (py_min v0 vs)) eqn:Eeq.
    + eexists. split; [done|]. split.
      * rewrite <- list_fmap_compose. apply list_fmap_ext. by intros ? [??] _.
      * apply Forall_fmap, Forall_forall. intros [k v] _. simpl.
        apply step_unit_range.
    + assert (Hall : ∀ kv, kv ∈ rules_dict →
                ¬ (py_max v0 vs - py_min v0 vs == 0)%Q
                ∧ (0 <= (kv.2 - py_min v0 vs) / (py_max v0 vs - py_min v0 vs)
                   <= 1)%Q).
      { intros [k v] Hin. simpl.
        assert (Hv : v ∈ v0 :: vs).
        { rewrite <- E. apply list_elem_of_fmap. by exists (k, v). }
        apply scaled_unit_range; [by apply py_min_le_all|by apply py_max_ge_all
                                 |done]. }
      exists ((λ kv, (kv.1, ((kv.2 - py_min v0 vs)
                             / (py_max v0 vs - py_min v0 vs))%Q)) <$> rules_dict).
      split; [|split].
      * clear E. induction rules_dict as [|[k v] d IH]; [done|].
        cbn [mapM]. destruct (Hall (k, v) ltac:(left)) as [Hnz _].
        rewrite py_div_ok by done. cbn [mbind result_bind].
        rewrite IH; [done|]. intros kv Hkv. apply Hall. by right.
      * rewrite <- list_fmap_compose. apply list_fmap_ext. by intros ? [??] _.
      * apply Forall_fmap, Forall_forall. intros kv Hin. simpl.
        by apply Hall.
Qed.

Lemma Qlt_bool_0_proper (v c : Q) : (v == c)%Q → Qlt_bool 0 v = Qlt_bool 0 c.
Proof.
  intros Hvc.
  destruct (Qlt_bool 0 v) eqn:Ev, (Qlt_bool 0 c) eqn:Ec; try done.
  - apply Qlt_bool_iff in Ev. apply Qlt_bool_false_iff in Ec. lra.
  - apply Qlt_bool_iff in Ec. apply Qlt_bool_false_iff in Ev. lra.
Qed.

(** X9. When all strengths are equal, [_normalize_rule_scores] maps every item
    to 1.0 if the shared strength is positive and to 0.0 otherwise. *)
Theorem normalize_rule_scores_equal_values (rules_dict : odict Q) (c : Q) :
  Forall (λ kv, (kv.2 == c)%Q) rules_dict →
  _normalize_rule_scores rules_dict
  = Ok ((λ kv, (kv.1, if Qlt_bool 0 c then 1%Q else 0%Q)) <$> rules_dict).
Proof.
  intros Hall. unfold _normalize_rule_scores.
  destruct (rules_dict.*2) as [|v0 vs] eqn:E.
  - by destruct rules_dict.
  - assert (Hc : ∀ v, v ∈ v0 :: vs → (v == c)%Q).
    { intros v Hv. rewrite <- E in Hv.
      apply list_elem_of_fmap in Hv as ([k v'] & -> & Hin).
      rewrite Forall_forall in Hall. by apply (Hall (k, v')). }
    pose proof (Hc _ (py_min_in vs v0)) as Hmin.
    pose proof (Hc _ (py_max_in vs v0)) as Hmax.
    rewrite (proj2 (Qeq_bool_iff _ _)) by (by rewrite Hmin, Hmax).
    f_equal. apply list_fmap_ext. intros i [k v] Hlook. simpl.
    apply list_elem_of_lookup_2 in Hlook.
    rewrite Forall_forall in Hall.
    by rewrite (Qlt_bool_0_proper v c (Hall _ Hlook)).
Qed.

Lemma Forall2_keys_range {A} (R : Z * A → Z * Q → Prop) (P : Z * Q → Prop)
    (l : list (Z * A)) (r : odict Q) :
  Forall2 R l r →
  (∀ x y, x ∈ l → R x y → y.1 = x.1 ∧ P y) →
  r.*1 = l.*1 ∧ Forall P r.
Proof.
  induction 1 as [|x y l r Hxy _ IH]; intros HR; [by split|].
  destruct (HR x y ltac:(left) Hxy) as [Hk HP].
  destruct IH as [IH1 IH2].
  { intros x' y' Hx'. apply HR. by right. }
  split; [rewrite !fmap_cons; by f_equal|by constructor].
Qed.

(** X10. Whatever [math.log1p] returns, if [_normalize_pop_scores] returns then
    its result has the keys of its input in the same order and all its
    values lie in [0, 1]. *)
Theorem normalize_pop_scores_unit_range (log1p : Q → result Q)
    (pop_scores r : odict Q) :
  _normalize_pop_scores log1p pop_scores = Ok r →
  r.*1 = pop_scores.*1 ∧ Forall (λ kv, (0 <= kv.2 <= 1)%Q) r.
Proof.
  unfold _normalize_pop_scores.
  destruct (pop_scores.*2) as [|v0 vs] eqn:E.
  - intros [= <-]. by destruct pop_scores.
  - destruct (log1p v0) as [y0|] eqn:E0; simpl; [|discriminate].
    destruct (mapM log1p vs) as [ys|] eqn:Es; simpl; [|discriminate].
    apply mapM_result_inv in Es.
    assert (Hlog : ∀ v y, v ∈ v0 :: vs → log1p v = Ok y → y ∈ y0 :: ys).
    { intros v y Hv Hy. apply elem_of_cons in Hv as [->|Hv].
      - rewrite E0 in Hy. injection Hy as <-. left.
      - right. apply list_elem_of_lookup_1 in Hv as [i Hi].
        destruct (Forall2_lookup_l _ _ _ _ _ Es Hi) as (y' & Hy' & Hv').
        rewrite Hy in Hv'. injection Hv' as <-.
        by apply list_elem_of_lookup_2 in Hy'. }
    destruct (Qeq_bool (py_max y0 ys) (py_min y0 ys)) eqn:Eeq.
    + intros [= <-]. split.
      * rewrite <- list_fmap_compose. apply list_fmap_ext. by intros ? [??] _.
      * apply Forall_fmap, Forall_forall. intros [k v] _. simpl.
        apply step_unit_range.
    + intros Hr. apply mapM_result_inv in Hr.
      eapply Forall2_keys_range; [exact Hr|].
      intros [k v] y Hin Hy. simpl in Hy.
      destruct (log1p v) as [yv|] eqn:Ev; simpl in Hy; [|discriminate].
      assert (Hyv : yv ∈ y0 :: ys).
      { apply (Hlog v); [|done]. rewrite <- E.
        apply list_elem_of_fmap. by exists (k, v). }
      destruct (scaled_unit_range (py_min y0 ys) (py_max y0 ys) yv)
        as [Hnz Hrange];
        [by apply py_min_le_all|by apply py_max_ge_all|done|].
      rewrite py_div_ok in Hy by done. simpl in Hy. injection Hy as <-.
      by split.
Qed.

(** ** The blend weight: range, dependence on [c], failure *)


(** X12. A larger positive [c] never gives a larger weight. *)
Theorem adaptive_alpha_antitone_in_c (basket_size : Z) (c c' : Q) :
  (0 < c)%Q → (c <= c')%Q →
  ∃ x x', _adaptive_alpha basket_size c = Ok x
          ∧ _adaptive_alpha basket_size c' = Ok x' ∧ (x' <= x)%Q.
Proof.
  intros Hc Hcc. unfold _adaptive_alpha.
  destruct (basket_size <=? 0)%Z eqn:E.
  - exists 0%Q, 0%Q. repeat split; apply Qle_refl.
  - apply Z.leb_gt in E. pose proof (inject_Z_pos _ E) as Hn.
    rewrite !py_div_ok by lra. do 2 eexists. do 2 (split; [done|]).
    set (n := inject_Z basket_size) in *.
    apply Qle_shift_div_r; [lra|].
    assert (Heq : (n / (n + c) * (n + c') == n * (n + c') / (n + c))%Q)
      by (field; lra).
    rewrite Heq. apply Qle_shift_div_l; [lra|]. nra.
Qed.

(** X13. [_adaptive_alpha] raises [ZeroDivisionError] exactly when the basket
    size is positive and [c] is its opposite. *)
Theorem adaptive_alpha_raises_iff (basket_size : Z) (c : Q) :
  _adaptive_alpha basket_size c = Raise ZeroDivisionError
  ↔ (0 < basket_size)%Z ∧ (inject_Z basket_size + c == 0)%Q.
Proof.
  unfold _adaptive_alpha, py_div.
  destruct (basket_size <=? 0)%Z eqn:E.
  - apply Z.leb_le in E. split; [discriminate|]. intros [H _]. lia.
  - apply Z.leb_gt in E.
    destruct (Qeq_bool (inject_Z basket_size + c) 0) eqn:Ez.
    + apply Qeq_bool_iff in Ez. by split.
    + split; [discriminate|]. intros [_ H]. apply Qeq_bool_iff in H. congruence.
Qed.

(** ** The fetchers *)

Lemma od_get_set_eq {V} (d : odict V) k v : od_get (od_set d k v) k = Some v.
Proof.
  induction d as [|[k' v'] d IH]; simpl.
  - by rewrite decide_True.
  - destruct (decide (k = k')) as [->|Hne]; simpl.
    + by rewrite decide_True.
    + by rewrite decide_False.
Qed.

Lemma od_get_set_ne {V} (d : odict V) k j v :
  j ≠ k → od_get (od_set d k v) j = od_get d j.
Proof.
  intros Hne. induction d as [|[k' v'] d IH]; simpl.
  - by rewrite decide_False.
  - destruct (decide (k = k')) as [->|Hne']; simpl.
    + by rewrite !decide_False.
    + destruct (decide (j = k')); [done|auto].
Qed.

Lemma collect_recs_inv (bs : gset Z) (rows : list rule_row) :
  ∀ recs recs' : odict Q,
  NoDup recs.*1 → Forall (λ kv, (kv.1 ∉ bs) ∧ (0 <= kv.2)%Q) recs →
  collect_recs bs rows recs = Ok recs' →
  NoDup recs'.*1 ∧ Forall (λ kv, (kv.1 ∉ bs) ∧ (0 <= kv.2)%Q) recs'.
Proof.
  induction rows as [|row rows IH]; intros recs recs' Hnd Hall; simpl.
  - by intros [= <-].
  - case_bool_decide as Hov; [by apply IH|].
    destruct (elements (list_to_set (consequent_key row) : gset Z))
      as [|c cs] eqn:Eel; [discriminate|].
    apply IH; [by apply od_set_nodup|].
    apply od_set_Forall; [done|]. simpl. split.
    + assert (Hc : c ∈ (list_to_set (consequent_key row) : gset Z)).
      { apply elem_of_elements. rewrite Eel. left. }
      intros Hbs.
      apply (not_elem_of_empty (C := gset Z) c). rewrite <- Hov.
      by apply elem_of_intersection.
    + eapply Qle_trans; [|apply py_max2_ge_l].
      unfold od_get_or. destruct (od_get recs c) as [v|] eqn:E; simpl.
      * apply od_get_Some_elem in E. rewrite Forall_forall in Hall.
        by destruct (Hall _ E).
      * apply Qle_refl.
Qed.

(** X14. The candidates that [_fetch_rules] returns have distinct ids, none of
    which is in the basket, and strengths that are never negative. *)
Theorem fetch_rules_outside_basket_nonnegative db self (basket_ids : list Z)
    fetch_limit (recs : odict Q) :
  _fetch_rules db self basket_ids fetch_limit = Ok recs →
  NoDup recs.*1 ∧ Forall (λ kv, (kv.1 ∉ basket_ids) ∧ (0 <= kv.2)%Q) recs.
Proof.
  unfold _fetch_rules. destruct basket_ids as [|b0 bs].
  - intros [= <-]. split; constructor.
  - destruct (query_rules db (b0 :: bs) fetch_limit) as [rows|]; simpl;
      [|discriminate].
    intros H. apply collect_recs_inv in H as [Hnd Hall];
      [|apply NoDup_nil_2|constructor].
    split; [done|]. eapply Forall_impl; [exact Hall|]. simpl.
    intros [k v] [Hk Hv]. split; [|done].
    intros Hin. apply Hk.
    exact (proj2 (elem_of_list_to_set (C := gset Z) k (b0 :: bs)) Hin).
Qed.

Lemma collect_recs_grows (bs : gset Z) (rows : list rule_row) c :
  ∀ (recs recs' : odict Q) v,
  collect_recs bs rows recs = Ok recs' → od_get recs c = Some v →
  ∃ v', od_get recs' c = Some v' ∧ (v <= v')%Q.
Proof.
  induction rows as [|row rows IH]; intros recs recs' v; simpl.
  - intros [= <-] Hv. exists v. split; [done|apply Qle_refl].
  - case_bool_decide as Hov; [by apply IH|].
    destruct (elements (list_to_set (consequent_key row) : gset Z))
      as [|c1 cs] eqn:Eel; [discriminate|].
    intros Hrun Hv. destruct (decide (c = c1)) as [->|Hne].
    + destruct (IH _ _ _ Hrun (od_get_set_eq recs c1 _)) as (v' & Hv' & Hle).
      exists v'. split; [done|]. eapply Qle_trans; [|exact Hle].
      unfold od_get_or. rewrite Hv. simpl. apply py_max2_ge_l.
    + apply (IH _ _ v Hrun). by rewrite od_get_set_ne.
Qed.

Lemma collect_recs_max (bs : gset Z) (rows : list rule_row) row c :
  ∀ recs recs' : odict Q,
  collect_recs bs rows recs = Ok recs' →
  row ∈ rows → consequent_key row = [c] → c ∉ bs →
  ∃ v, od_get recs' c = Some v ∧ (rule_score row <= v)%Q.
Proof.
  induction rows as [|row1 rows IH]; intros recs recs' Hrun Hin Hkey Hc.
  - by apply elem_of_nil in Hin.
  - apply elem_of_cons in Hin as [<-|Hin]; simpl in Hrun.
    + rewrite Hkey in Hrun. simpl in Hrun.
      rewrite union_empty_r_L in Hrun.
      rewrite bool_decide_eq_false_2 in Hrun.
      2:{ intros Hne. apply Hne. apply set_eq. intros x.
          rewrite elem_of_intersection, elem_of_singleton.
          split; [intros [-> ?]; done|]. intros H. by apply not_elem_of_empty in H. }
      rewrite elements_singleton in Hrun.
      destruct (collect_recs_grows _ _ c _ _ _ Hrun (od_get_set_eq recs c _))
        as (v' & Hv' & Hle).
      exists v'. split; [done|]. eapply Qle_trans; [|exact Hle].
      apply py_max2_ge_r.
    + case_bool_decide as Hov; [by eapply IH|].
      destruct (elements (list_to_set (consequent_key row1) : gset Z))
        as [|c1 cs] eqn:Eel; [discriminate|].
      by eapply IH.
Qed.

(** X15. Among the rules that qualify for a consequent the strongest wins: for
    every fetched rule whose consequent is a single item outside the basket,
    the result holds that item with a strength at least the rule's score. *)
Theorem fetch_rules_keeps_strongest db self (basket_ids : list Z) fetch_limit
    (rows : list rule_row) (recs : odict Q) row c :
  basket_ids ≠ [] →
  query_rules db basket_ids fetch_limit = Ok rows →
  _fetch_rules db self basket_ids fetch_limit = Ok recs →
  row ∈ rows → consequent_key row = [c] → c ∉ basket_ids →
  ∃ v, od_get recs c = Some v ∧ (rule_score row <= v)%Q.
Proof.
  intros Hne Hq Hf Hin Hkey Hc. unfold _fetch_rules in Hf.
  destruct basket_ids as [|b0 bs]; [done|].
  rewrite Hq in Hf. simpl in Hf.
  eapply collect_recs_max; eauto.
  intros H. apply Hc.
  exact (proj1 (elem_of_list_to_set (C := gset Z) c (b0 :: bs)) H).
Qed.

Lemma entries_of_fmap_same {Score} (src : source) (l : list (Z * Score)) :
  entries_of src ((λ '(iid, score), (iid, score, src)) <$> l) = l.
Proof.
  unfold entries_of. induction l as [|[k v] l IH]; [done|].
  rewrite fmap_cons. cbn [omap list_omap]. simpl.
  rewrite decide_True by done. f_equal. exact IH.
Qed.

Lemma entries_of_fmap_other {Score} (src src' : source) (l : list (Z * Score)) :
  src' ≠ src →
  entries_of src ((λ '(iid, score), (iid, score, src')) <$> l) = [].
Proof.
  intros Hne. unfold entries_of. induction l as [|[k v] l IH]; [done|].
  rewrite fmap_cons. cbn [omap list_omap]. simpl.
  rewrite decide_False by done. exact IH.
Qed.

(** X16. When both popularity queries answer, [_fetch_popularity] returns all
    their rows, and splitting its result by tag gives back the rows of the
    regional query and the rows of the global query, each in its order. *)
Theorem fetch_popularity_splits_back db self top_n_region top_n_global
    (exclude_ids : list Z) (region_rows global_rows : list (Z * Z)) :
  query_popularity db (region self) exclude_ids (top_n_region * 2) = Ok region_rows →
  query_popularity db "GLOBAL" exclude_ids (top_n_global * 2) = Ok global_rows →
  ∃ l, _fetch_popularity db self top_n_region top_n_global exclude_ids = Ok l
       ∧ length l = length region_rows + length global_rows
       ∧ entries_of Region l = region_rows
       ∧ entries_of Global l = global_rows.
Proof.
  intros Hr Hg. unfold _fetch_popularity. rewrite Hr. simpl. rewrite Hg. simpl.
  eexists. split; [done|]. split; [|split].
  - by rewrite length_app, !length_fmap.
  - unfold entries_of. rewrite omap_app.
    fold (entries_of Region ((λ '(iid, score), (iid, score, Region)) <$> region_rows)).
    fold (entries_of Region ((λ '(iid, score), (iid, score, Global)) <$> global_rows)).
    rewrite entries_of_fmap_same, entries_of_fmap_other by done.
    apply app_nil_r.
  - unfold entries_of. rewrite omap_app.
    fold (entries_of Global ((λ '(iid, score), (iid, score, Region)) <$> region_rows)).
    fold (entries_of Global ((λ '(iid, score), (iid, score, Global)) <$> global_rows)).
    by rewrite entries_of_fmap_same, entries_of_fmap_other.
Qed.

(** ** The engine: shape of the results *)

Lemma elem_of_entries_of {Score} (src : source) (l : list (Z * Score * source))
    (x : Z * Score) :
  (x, src) ∈ l → x ∈ entries_of src l.
Proof.
  intros Hin. unfold entries_of. apply list_elem_of_omap.
  exists (x, src). split; [done|]. simpl. by rewrite decide_True.
Qed.

Lemma cold_start_closed_form self (pop_all : list (Z * Z * source)) top_n :
  ∃ recs, cold_start self pop_all top_n = Ok recs
          ∧ length recs ≤ top_n
          ∧ NoDup (item_id <$> recs)
          ∧ Forall (cold_shape self) recs.
Proof.
  unfold cold_start.
  set (pr := omap (λ '(iid, score, src),
                     if decide (src = Region) then Some (iid, score) else None)
                  pop_all).
  set (pg := omap (λ '(iid, score, src),
                     if decide (src = Global) then Some (iid, score) else None)
                  pop_all).
  destruct (minmax_norm_closed_form pr) as (rn & fr & Hrn & Hrlook & Hrrange & _).
  destruct (minmax_norm_closed_form pg) as (gn & fg & Hgn & Hglook & Hgrange & _).
  rewrite Hrn. cbn [mbind result_bind]. rewrite Hgn. cbn [mbind result_bind].
  destruct (interleave_pairs_final pr pg rn (2 # 10) top_n)
    as (s & Hout & [Hlen Hnd Hseen Hgate] & [Htag Hr Hg _ _] & _).
  rewrite Hout, take_ge by done.
  eexists. split; [done|]. split; [by rewrite length_fmap|]. split.
  - rewrite <- list_fmap_compose. rewrite <- list_fmap_compose in Hnd.
    erewrite list_fmap_ext; [exact Hnd|]. by intros i [[iid sc] src] _.
  - apply Forall_fmap, Forall_forall. intros [[iid sc] src] Hin.
    unfold cold_shape. eexists. split; [done|]. simpl. split; [done|].
    rewrite Forall_forall in Htag.
    destruct (Htag _ Hin) as [Hsrc|Hsrc]; simpl in Hsrc; subst src; simpl.
    + left. do 2 (split; [done|]).
      rewrite Forall_forall in Hgate.
      assert (Hpass : (2 # 10 <= dict_get_or rn iid 0)%Q).
      { apply (Hgate (iid, sc, Region)).
        apply list_elem_of_filter. by split. }
      unfold dict_get_or in Hpass.
      destruct (rn !! iid) as [q|] eqn:Eq; simpl in Hpass; [|done].
      exists q. split; [done|]. split; [done|].
      rewrite Hrlook in Eq.
      destruct (od_get (reverse pr) iid) as [v|] eqn:Ev; [|done].
      injection Eq as <-. apply Hrrange.
      apply od_get_Some_elem in Ev. rewrite elem_of_reverse in Ev.
      apply list_elem_of_fmap. by exists (iid, v).
    + right. do 2 (split; [done|]).
      assert (Hpg : (iid, sc) ∈ pg).
      { eapply elem_of_sublist; [by apply elem_of_entries_of|].
        etrans; [exact Hg|apply sublist_take]. }
      assert (Hsome : is_Some (od_get (reverse pg) iid)).
      { apply od_get_is_Some. rewrite fmap_reverse, elem_of_reverse.
        apply list_elem_of_fmap. by exists (iid, sc). }
      destruct Hsome as [v Hv]. exists (fg v).
      split; [by rewrite Hglook, Hv|].
      apply Hgrange. apply od_get_Some_elem in Hv.
      rewrite elem_of_reverse in Hv.
      apply list_elem_of_fmap. by exists (iid, v).
Qed.

(** X17. With an empty basket, once the popularity fetch has returned,
    [recommend] returns at most [top_n] records with distinct item ids; each
    has the description of its id and exactly the score of its source: a
    region record a regional score between 0.2 and 1 and no global score, a
    global record a global score between 0 and 1 and no regional score. *)
Theorem cold_start_records db self top_n (pop_all : list (Z * Z * source)) :
  basket self = ∅ →
  _fetch_popularity db self top_n top_n (elements (basket self)) = Ok pop_all →
  ∃ recs, recommend db self top_n = Ok recs
          ∧ length recs ≤ top_n
          ∧ NoDup (item_id <$> recs)
          ∧ Forall (cold_shape self) recs.
Proof.
  intros Hempty Hfetch. unfold recommend.
  rewrite decide_True by done. rewrite Hfetch. cbn [mbind result_bind].
  apply cold_start_closed_form.
Qed.






(** X20. Adding an item that is not in the basket and removing it again leaves
    the engine as it was, and the recommendations returned by the removal
    are those of the original basket. *)
Theorem add_then_remove_restores db self item top_n top_n' :
  item ∉ basket self →
  remove_item db (add_item db self item top_n).1 item top_n'
  = run_recommend db self top_n'.
Proof.
  intros Hnot. unfold add_item, remove_item, run_recommend. simpl.
  assert (Hb : ({[item]} ∪ basket self) ∖ {[item]} = basket self).
  { apply set_eq. intros x.
    rewrite elem_of_difference, elem_of_union, elem_of_singleton.
    split; [tauto|]. intros Hx. split; [by right|]. by intros ->. }
  rewrite Hb. by destruct self.
Qed.

(** ** Construction and the catalogue *)

(** X21. A new engine has the given region and an empty basket, and describes an
    id by the description in the last catalogue row of that id, or by the
    placeholder when no row has it; when the catalogue query fails, so does
    the construction. *)
Theorem init_loads_catalogue (rows : list (Z * string)) (reg : string) (e : exn) :
  (∃ self, __init__ (Ok rows) reg = Ok self
     ∧ region self = reg ∧ basket self = ∅
     ∧ ∀ k, describe self k
            = match od_get (reverse rows) k with
              | Some d => d
              | None => "<unknown:" +:+ pretty k +:+ ">"
              end)
  ∧ __init__ (Raise e) reg = Raise e.
Proof.
  split; [|done].
  unfold __init__, _load_product_map. cbn [mbind result_bind].
  destruct (dict_comprehension_lookup
              (λ row : Z * string, Ok (row.1, row.2))
              (λ row : Z * string, (row.1, row.2)) rows ∅)
    as (m & Hm & Hlook).
  { apply Forall_forall. by intros. }
  rewrite Hm. cbn [mbind result_bind]. eexists. split; [done|].
  do 2 (split; [done|]). intros k. unfold describe. simpl.
  rewrite Hlook, lookup_empty.
  replace ((λ row : Z * string, (row.1, row.2)) <$> rows) with rows.
  2:{ rewrite <- (list_fmap_id rows) at 1. apply list_fmap_ext.
      by intros i [??] _. }
  by destruct (od_get (reverse rows) k).
Qed.

Lemma string_app_suffix_inj (c : Ascii.ascii) (s1 : string) : ∀ s2,
  s1 +:+ String c "" = s2 +:+ String c "" → s1 = s2.
Proof.
  induction s1 as [|a s1 IH]; intros [|b s2]; cbn; intros H.
  - done.
  - injection H as _ H. destruct s2; discriminate.
  - injection H as _ H. destruct s1; discriminate.
  - injection H as -> H. f_equal. by apply IH.
Qed.

(** X22. Two ids that are both missing from the catalogue and have the same
    description are the same id: the placeholder identifies the id. *)
Theorem unknown_placeholder_identifies_id self (i j : Z) :
  id_to_item self !! i = None → id_to_item self !! j = None →
  describe self i = describe self j → i = j.
Proof.
  intros Hi Hj. unfold describe. rewrite Hi, Hj. simpl. intros H.
  apply (String.app_inj "<unknown:") in H.
  apply string_app_suffix_inj in H.
  by apply pretty_Z_inj in H.
Qed.

(** ** The presentation layer *)

(** X23. The region selector is never empty; it offers exactly the loaded
    regions, or ["GLOBAL"] alone when none was loaded (in particular when the
    region query fails); and when ["GLOBAL"] is offered it is the first
    choice and occurs once. *)
Theorem region_choices_offered (regions : list string) (e : exn) :
  region_choices regions ≠ []
  ∧ (∀ r, r ∈ region_choices regions
          ↔ r ∈ regions ∨ (regions = [] ∧ r = "GLOBAL"))
  ∧ ("GLOBAL" ∈ region_choices regions →
       ∃ rest, region_choices regions = "GLOBAL" :: rest ∧ "GLOBAL" ∉ rest)
  ∧ region_choices (load_regions (Raise e)) = ["GLOBAL"].
Proof.
  unfold region_choices. split; [|split; [|split]].
  - case_bool_decide; [done|]. by destruct regions.
  - intros r. case_bool_decide as Hg.
    + rewrite elem_of_cons, list_elem_of_filter. split.
      * intros [->|[_ Hr]]; by left.
      * intros [Hr|[-> _]]; [|by apply elem_of_nil in Hg].
        destruct (decide (r = "GLOBAL")); [by left|by right].
    + destruct regions as [|r0 rs].
      * rewrite list_elem_of_singleton. split; [by right|].
        intros [Hr|[_ ->]]; [by apply elem_of_nil in Hr|done].
      * split; [by left|]. by intros [Hr|[? _]].
  - case_bool_decide as Hg.
    + intros _. eexists. split; [done|].
      rewrite list_elem_of_filter. by intros [? _].
    + destruct regions as [|r0 rs]; [|done].
      intros _. exists []. split; [done|]. apply not_elem_of_nil.
  - done.
Qed.

(** X24. For every record of the shape that [recommend] returns, the score that
    the page shows is the score the record carries for its source. *)
Theorem display_score_is_own_score self (r : recommendation) :
  cold_shape self r ∨ warm_shape self r →
  ∃ q, own_score r = Some q ∧ (display_score r == q)%Q.
Proof.
  intros [(c & -> & _ & Hc)|(w & -> & _)].
  - destruct c as [iid d rs gs src]. simpl in Hc.
    destruct Hc as [(-> & -> & q & -> & Hlo & _)|(-> & -> & q & -> & _)];
      exists q; (split; [done|]); unfold display_score; simpl.
    + assert (Hq : Qeq_bool q 0 = false).
      { destruct (Qeq_bool q 0) eqn:E; [|done].
        apply Qeq_bool_iff in E. rewrite E in Hlo. done. }
      rewrite Hq. simpl. rewrite Hq. done.
    + destruct (Qeq_bool q 0) eqn:E; simpl; [|done].
      apply Qeq_bool_iff in E. by rewrite E.
  - exists (final_score w). split; [done|]. unfold display_score. simpl.
    destruct (Qeq_bool (final_score w) 0) eqn:E; simpl.
    + apply Qeq_bool_iff in E. by rewrite E.
    + rewrite E. cbn [py_or]. rewrite E. reflexivity.
Qed.

(** ** Concrete runs of the further properties *)

Lemma interleave_pairs_short_output_witness :
  length (interleave_pairs sample_region sample_global sample_norm (2 # 10) 4) < 4
  ∧ Forall (λ x, x.1 ∈ (interleave_pairs sample_region sample_global sample_norm
                          (2 # 10) 4).*1.*1) sample_global
  ∧ Forall (λ x, x.1 ∈ (interleave_pairs sample_region sample_global sample_norm
                          (2 # 10) 4).*1.*1)
           (filter (λ x, (2 # 10 <= dict_get_or sample_norm x.1 0)%Q) sample_region).
Proof.
  assert (H : length (interleave_pairs sample_region sample_global sample_norm
                        (2 # 10) 4) < 4) by (vm_compute; lia).
  split; [exact H|].
  exact (interleave_pairs_short_output_is_complete sample_region sample_global
           sample_norm (2 # 10) 4 H).
Defined.

Lemma sample_region_passes :
  Forall (λ x, (2 # 10 <= dict_get_or sample_norm_pass x.1 0)%Q) sample_region.
Proof. repeat constructor; vm_compute; discriminate. Defined.

Lemma sample_lists_disjoint : NoDup (sample_region.*1 ++ sample_global_fresh.*1).
Proof. apply (bool_decide_unpack _). vm_compute. exact I. Defined.

Lemma interleave_pairs_strict_alternation_witness :
  Forall (λ x, (2 # 10 <= dict_get_or sample_norm_pass x.1 0)%Q) sample_region
  ∧ NoDup (sample_region.*1 ++ sample_global_fresh.*1)
  ∧ interleave_pairs sample_region sample_global_fresh sample_norm_pass (2 # 10) 3
    = take 3 (alternate sample_region sample_global_fresh).
Proof.
  split; [exact sample_region_passes|]. split; [exact sample_lists_disjoint|].
  exact (interleave_pairs_strict_alternation sample_region sample_global_fresh
           sample_norm_pass (2 # 10) 3 sample_region_passes sample_lists_disjoint).
Defined.

Lemma minmax_norm_preserves_ranking_witness :
  NoDup sample_region.*1
  ∧ (2, 50)%Z ∈ sample_region ∧ (1, 100)%Z ∈ sample_region ∧ (50 ≤ 100)%Z
  ∧ ∃ m p q, minmax_norm sample_region = Ok m
             ∧ m !! 2%Z = Some p ∧ m !! 1%Z = Some q ∧ (p <= q)%Q.
Proof.
  assert (H1 : NoDup sample_region.*1)
    by (apply (bool_decide_unpack _); vm_compute; exact I).
  assert (H2 : (2, 50)%Z ∈ sample_region) by (right; left).
  assert (H3 : (1, 100)%Z ∈ sample_region) by left.
  assert (H4 : (50 ≤ 100)%Z) by lia.
  do 4 (split; [assumption|]).
  exact (minmax_norm_preserves_ranking sample_region 2 50 1 100 H1 H2 H3 H4).
Defined.

Lemma normalize_rule_scores_equal_values_witness :
  Forall (λ kv, (kv.2 == 1 # 2)%Q) sample_equal_strengths
  ∧ _normalize_rule_scores sample_equal_strengths
    = Ok ((λ kv, (kv.1, if Qlt_bool 0 (1 # 2) then 1%Q else 0%Q))
            <$> sample_equal_strengths).
Proof.
  assert (H : Forall (λ kv, (kv.2 == 1 # 2)%Q) sample_equal_strengths)
    by (repeat constructor).
  split; [exact H|].
  exact (normalize_rule_scores_equal_values sample_equal_strengths (1 # 2) H).
Defined.

Lemma normalize_pop_scores_unit_range_witness :
  ∃ r, _normalize_pop_scores log1p_table sample_counts = Ok r
       ∧ r.*1 = sample_counts.*1 ∧ Forall (λ kv, (0 <= kv.2 <= 1)%Q) r.
Proof.
  eassert (H : _normalize_pop_scores log1p_table sample_counts = Ok _)
    by (vm_compute; reflexivity).
  eexists. split; [exact H|].
  exact (normalize_pop_scores_unit_range log1p_table sample_counts _ H).
Defined.


Lemma adaptive_alpha_antitone_witness :
  (0 < 3)%Q ∧ (3 <= 6)%Q
  ∧ ∃ x x', _adaptive_alpha 5 3 = Ok x ∧ _adaptive_alpha 5 6 = Ok x'
            ∧ (x' <= x)%Q.
Proof.
  assert (H1 : (0 < 3)%Q) by reflexivity.
  assert (H2 : (3 <= 6)%Q) by discriminate.
  split; [exact H1|]. split; [exact H2|].
  exact (adaptive_alpha_antitone_in_c 5 3 6 H1 H2).
Defined.

Lemma fetch_rules_outside_basket_witness :
  _fetch_rules sample_db sample_engine (elements (basket sample_engine)) (15 * 8)
  = Ok sample_rules
  ∧ NoDup sample_rules.*1
  ∧ Forall (λ kv, (kv.1 ∉ elements (basket sample_engine)) ∧ (0 <= kv.2)%Q)
           sample_rules.
Proof.
  split; [exact sample_fetch_rules|].
  exact (fetch_rules_outside_basket_nonnegative sample_db sample_engine _ _ _
           sample_fetch_rules).
Defined.

Lemma fetch_rules_keeps_strongest_witness :
  elements (basket sample_engine) ≠ []
  ∧ query_rules sample_db (elements (basket sample_engine)) (15 * 8)
    = Ok sample_rule_rows
  ∧ ∃ v, od_get sample_rules 20%Z = Some v ∧ (9 # 10 <= v)%Q.
Proof.
  assert (H1 : elements (basket sample_engine) ≠ [])
    by (vm_compute; discriminate).
  assert (H2 : query_rules sample_db (elements (basket sample_engine)) (15 * 8)
               = Ok sample_rule_rows) by reflexivity.
  split; [exact H1|]. split; [exact H2|].
  refine (fetch_rules_keeps_strongest sample_db sample_engine _ _ sample_rule_rows
            sample_rules (RuleRow [20%Z] (1 # 2) 2 (9 # 10)) 20%Z
            H1 H2 sample_fetch_rules _ eq_refl _).
  - left.
  - vm_compute. intros H. inversion H as [|? ? ? H']. inversion H'.
Defined.

Lemma fetch_popularity_splits_back_witness :
  query_popularity sample_db (region fresh_engine) [] (4 * 2)
  = Ok [(40, 50); (60, 10)]%Z
  ∧ query_popularity sample_db "GLOBAL" [] (4 * 2)
    = Ok [(40, 50); (50, 20); (20, 5)]%Z
  ∧ ∃ l, _fetch_popularity sample_db fresh_engine 4 4 [] = Ok l
         ∧ length l = 2 + 3
         ∧ entries_of Region l = [(40, 50); (60, 10)]%Z
         ∧ entries_of Global l = [(40, 50); (50, 20); (20, 5)]%Z.
Proof.
  assert (H1 : query_popularity sample_db (region fresh_engine) [] (4 * 2)
               = Ok [(40, 50); (60, 10)]%Z) by (vm_compute; reflexivity).
  assert (H2 : query_popularity sample_db "GLOBAL" [] (4 * 2)
               = Ok [(40, 50); (50, 20); (20, 5)]%Z) by (vm_compute; reflexivity).
  split; [exact H1|]. split; [exact H2|].
  exact (fetch_popularity_splits_back sample_db fresh_engine 4 4 [] _ _ H1 H2).
Defined.

Lemma cold_start_records_witness :
  basket fresh_engine = ∅
  ∧ ∃ recs, recommend sample_db fresh_engine 4 = Ok recs
            ∧ length recs ≤ 4
            ∧ NoDup (item_id <$> recs)
            ∧ Forall (cold_shape fresh_engine) recs.
Proof.
  assert (H1 : basket fresh_engine = ∅) by reflexivity.
  eassert (H2 : _fetch_popularity sample_db fresh_engine 4 4
                  (elements (basket fresh_engine)) = Ok _)
    by (vm_compute; reflexivity).
  split; [exact H1|].
  exact (cold_start_records sample_db fresh_engine 4 _ H1 H2).
Defined.



Lemma add_then_remove_restores_witness :
  (5%Z ∉ basket fresh_engine)
  ∧ remove_item sample_db (add_item sample_db fresh_engine 5 15).1 5 15
    = run_recommend sample_db fresh_engine 15.
Proof.
  assert (H : 5%Z ∉ basket fresh_engine) by apply not_elem_of_empty.
  split; [exact H|].
  exact (add_then_remove_restores sample_db fresh_engine 5 15 15 H).
Defined.

Lemma unknown_placeholder_witness :
  id_to_item fresh_engine !! 7%Z = None
  ∧ describe fresh_engine 7 = describe fresh_engine 7
  ∧ 7%Z = 7%Z.
Proof.
  assert (H : id_to_item fresh_engine !! 7%Z = None) by reflexivity.
  split; [exact H|]. split; [reflexivity|].
  exact (unknown_placeholder_identifies_id fresh_engine 7 7 H H eq_refl).
Defined.

Lemma display_score_witness :
  (cold_shape fresh_engine sample_cold_record
   ∨ warm_shape fresh_engine sample_cold_record)
  ∧ ∃ q, own_score sample_cold_record = Some q
         ∧ (display_score sample_cold_record == q)%Q.
Proof.
  assert (H : cold_shape fresh_engine sample_cold_record
              ∨ warm_shape fresh_engine sample_cold_record).
  { left. eexists. split; [reflexivity|]. split; [reflexivity|].
    left. do 2 (split; [reflexivity|]). exists 1%Q.
    split; [reflexivity|]. split; discriminate. }
  split; [exact H|].
  exact (display_score_is_own_score fresh_engine sample_cold_record H).
Defined.
